(** * ion-header: the collapsible header controller

    A shallow embedding of [core/src/components/header/header.tsx]: the
    [Header] component's private state, its three lifecycle hooks and the
    DOM, scheduler and observer primitives they call.  The two update
    hooks are [async]: they are given in two pieces, up to the [await] of
    the setup and from it on, so that hooks can overlap. *)

From Stdlib Require Import ZArith QArith Qminmax Lqa Lia Ascii String DecimalString DecimalPos DecimalZ.
From stdpp Require Import base option list strings gmap sorting.

Set Default Proof Using "Type".
Local Open Scope Z_scope.

(** ** The document *)

Module Dom.

(** An element of the light DOM.  [collapse] is the [collapse] property
    that [ion-header] elements expose ([undefined] is [None]);
    [clientHeight] is the rendered height in pixels, a non-negative
    integer; [scrollElement] says
    whether an [ion-content] has its inner scroll element. *)
#[warnings="-register-all"]
Inductive Element : Type :=
  Node { tagName : string;
         classList : list string;
         collapse : option string;
         clientHeight : N;
         scrollElement : bool;
         childNodes : list Element }.

(** A reference to an element is its position in the document: the child
    indices that lead to it from the root. *)
Abbreviation Loc := (list nat).

Fixpoint nodeAt (doc : Element) (p : Loc) : option Element :=
  match p with
  | [] => Some doc
  | i :: p' =>
      match childNodes doc !! i with
      | Some c => nodeAt c p'
      | None => None
      end
  end.

(** Strict descendants in document (pre-)order, as positions relative to
    the element. *)
Fixpoint descendants (e : Element) : list Loc :=
  (fix go (i : nat) (cs : list Element) : list Loc :=
     match cs with
     | [] => []
     | c :: cs' => ([i] :: map (cons i) (descendants c)) ++ go (S i) cs'
     end) 0%nat (childNodes e).

(** The same traversal over a list of siblings whose first index is [i]. *)
Fixpoint forest (i : nat) (cs : list Element) : list Loc :=
  match cs with
  | [] => []
  | c :: cs' => ([i] :: map (cons i) (descendants c)) ++ forest (S i) cs'
  end.

(** Document order on positions: an element comes before its descendants
    and before everything under its later siblings. *)
Fixpoint before (p q : Loc) : Prop :=
  match p, q with
  | [], [] => False
  | [], _ :: _ => True
  | _ :: _, [] => False
  | i :: p', j :: q' => (i < j)%nat \/ (i = j /\ before p' q')
  end.

(** Simple selectors and comma-separated selector lists: the only forms
    the component uses. *)
Inductive Simple : Type :=
  | Tag (name : string)
  | Class (name : string).

Abbreviation Selector := (list Simple).

Definition matchesSimple (e : Element) (s : Simple) : bool :=
  match s with
  | Tag t => String.eqb (tagName e) t
  | Class c => existsb (String.eqb c) (classList e)
  end.

Definition matches (e : Element) (sel : Selector) : bool :=
  existsb (matchesSimple e) sel.

Definition matchesAt (doc : Element) (sel : Selector) (p : Loc) : bool :=
  match nodeAt doc p with
  | Some e => matches e sel
  | None => false
  end.

(** [inclusiveAncestors p] lists [p] itself, its parent, ... up to the root. *)
Fixpoint inclusiveAncestors (p : Loc) : list Loc :=
  match p with
  | [] => [[]]
  | i :: p' => map (cons i) (inclusiveAncestors p') ++ [[]]
  end.

(** [Element.closest(selectors)]: the nearest inclusive ancestor that
    matches. *)
Definition closest (doc : Element) (el : Loc) (sel : Selector) : option Loc :=
  List.find (matchesAt doc sel) (inclusiveAncestors el).

(** [Element.querySelectorAll(selectors)]: the matching strict descendants
    of the element at [scope], in document order. *)
Definition querySelectorAll (doc : Element) (scope : Loc) (sel : Selector) : list Loc :=
  match nodeAt doc scope with
  | Some e =>
      List.filter (matchesAt doc sel) (map (app scope) (descendants e))
  | None => []
  end.

(** [Element.querySelector(selectors)]: the first of them. *)
Definition querySelector (doc : Element) (scope : Loc) (sel : Selector) : option Loc :=
  head (querySelectorAll doc scope sel).

(** Properties read through a reference; a reference that no longer
    denotes an element reads as a detached one. *)
Definition collapseAt (doc : Element) (p : Loc) : option string :=
  match nodeAt doc p with
  | Some e => collapse e
  | None => None
  end.

Definition clientHeightAt (doc : Element) (p : Loc) : Z :=
  match nodeAt doc p with
  | Some e => Z.of_N (clientHeight e)
  | None => 0
  end.

(** The nearest inclusive ancestor of [el] that matches. *)
Definition nearest (doc : Element) (el : Loc) (sel : Selector) (q : Loc) : Prop :=
  q `prefix_of` el /\ matchesAt doc sel q = true /\
  forall q', q' `prefix_of` el -> (length q < length q')%nat -> matchesAt doc sel q' = false.

(** [h] is an element with the given tag strictly inside [scope]. *)
Definition inside (doc : Element) (scope : Loc) (tag : string) (h : Loc) : Prop :=
  exists p e, p <> [] /\ h = scope ++ p /\ nodeAt doc h = Some e /\ tagName e = tag.

End Dom.

Import Dom.

(** ** Values the component and its helpers pass around *)

(** [getIonMode(this)]: the platform style of the component, ["ios"] or
    ["md"] as the component documents its [mode]. *)
Inductive Mode : Type := ios | md.

(** Modelled from the spec: the [ToolbarIndex] and [HeaderIndex] of
    header.utils, which is not among the sources.  The index of a toolbar
    holds the toolbar and, for the first toolbar of a header only, its
    title; the background decoration lives in the toolbar's shadow tree
    and is referred to through the toolbar.  The [isActive] flag of a
    header index is the CSS-facing flag of the header element itself (see
    [inactiveHeaders] below). *)
Record ToolbarIndex : Type :=
  { toolbarEl : Loc;
    ionTitleEl : option Loc }.

Record HeaderIndex : Type :=
  { headerEl : Loc;
    toolbars : list ToolbarIndex }.

(** The two arrow functions that [setupCollapsibleHeader] creates, with
    the variables they capture. *)
Inductive Closure : Type :=
  | ToolbarIntersection (mainHeaderIndex scrollHeaderIndex : HeaderIndex)
  | ContentScroll (mainHeaderIndex scrollHeaderIndex : HeaderIndex) (remainingHeight : Z).

(** A function object: [removeEventListener] compares listeners by
    identity, so each closure carries the reference it was allocated at. *)
Record Callback : Type :=
  { ref : nat;
    code : Closure }.

(** An [IntersectionObserver] object: its callback, its two options and
    the elements it currently observes. *)
Record Observer : Type :=
  { callback : Callback;
    threshold : Q;
    rootMargin : string;
    targets : list Loc }.

(** What the observer hands to its callback. *)
Record IntersectionEntry : Type :=
  { intersectionRatio : Q }.

(** What a callback is called with: the event of a scroll, or the entry
    of a visibility change. *)
Inductive Argument : Type :=
  | ScrollEvent
  | Entry (ev : IntersectionEntry).

(** Callbacks queued with Stencil's [readTask] and [writeTask]. *)
Inductive ReadTask : Type :=
  | SetupRead (pageEl : Loc)
  | ObserveRead (mainHeaderIndex scrollHeaderIndex : HeaderIndex) (toolbarIntersection : Callback).

Inductive WriteTask : Type :=
  | CloneWrite.

(** ** The state *)

Record World : Type :=
  { (* the host page *)
    document : Element;
    mode : Mode;
    scrollTop : gmap Loc Q;
    (* the [Header] instance: [el] and the four private fields *)
    el : Loc;
    collapsibleHeaderInitialized : bool;
    scrollEl : option Loc;
    contentScrollCallback : option Callback;
    intersectionObserver : option nat;
    (* the browser and the Stencil scheduler *)
    nextRef : nat;
    scrollListeners : list (Loc * Callback);
    observers : gmap nat Observer;
    console : list string;
    domReads : list ReadTask;
    domWrites : list WriteTask;
    (* what header.utils writes *)
    inactiveHeaders : gset Loc;
    borderVisible : gset Loc;
    titleScale : option Q;
    clonedElements : list string }.

(** A component that has just been created in [doc] at [at_]. *)
Definition fresh (doc : Element) (m : Mode) (at_ : Loc) : World :=
  {| document := doc; mode := m; scrollTop := ∅;
     el := at_; collapsibleHeaderInitialized := false; scrollEl := None;
     contentScrollCallback := None; intersectionObserver := None;
     nextRef := 0%nat; scrollListeners := []; observers := ∅; console := [];
     domReads := []; domWrites := [];
     inactiveHeaders := ∅; borderVisible := ∅; titleScale := None;
     clonedElements := [] |}.

Definition set_page (doc : Element) (m : Mode) (w : World) : World :=
  Build_World doc m (scrollTop w) (el w) (collapsibleHeaderInitialized w)
    (scrollEl w) (contentScrollCallback w) (intersectionObserver w) (nextRef w)
    (scrollListeners w) (observers w) (console w) (domReads w) (domWrites w)
    (inactiveHeaders w) (borderVisible w) (titleScale w) (clonedElements w).

Definition set_scrollTop (v : gmap Loc Q) (w : World) : World :=
  Build_World (document w) (mode w) v (el w) (collapsibleHeaderInitialized w)
    (scrollEl w) (contentScrollCallback w) (intersectionObserver w) (nextRef w)
    (scrollListeners w) (observers w) (console w) (domReads w) (domWrites w)
    (inactiveHeaders w) (borderVisible w) (titleScale w) (clonedElements w).

Definition set_collapsibleHeaderInitialized (v : bool) (w : World) : World :=
  Build_World (document w) (mode w) (scrollTop w) (el w) v
    (scrollEl w) (contentScrollCallback w) (intersectionObserver w) (nextRef w)
    (scrollListeners w) (observers w) (console w) (domReads w) (domWrites w)
    (inactiveHeaders w) (borderVisible w) (titleScale w) (clonedElements w).

Definition set_scrollEl (v : option Loc) (w : World) : World :=
  Build_World (document w) (mode w) (scrollTop w) (el w) (collapsibleHeaderInitialized w)
    v (contentScrollCallback w) (intersectionObserver w) (nextRef w)
    (scrollListeners w) (observers w) (console w) (domReads w) (domWrites w)
    (inactiveHeaders w) (borderVisible w) (titleScale w) (clonedElements w).

Definition set_contentScrollCallback (v : option Callback) (w : World) : World :=
  Build_World (document w) (mode w) (scrollTop w) (el w) (collapsibleHeaderInitialized w)
    (scrollEl w) v (intersectionObserver w) (nextRef w)
    (scrollListeners w) (observers w) (console w) (domReads w) (domWrites w)
    (inactiveHeaders w) (borderVisible w) (titleScale w) (clonedElements w).

Definition set_intersectionObserver (v : option nat) (w : World) : World :=
  Build_World (document w) (mode w) (scrollTop w) (el w) (collapsibleHeaderInitialized w)
    (scrollEl w) (contentScrollCallback w) v (nextRef w)
    (scrollListeners w) (observers w) (console w) (domReads w) (domWrites w)
    (inactiveHeaders w) (borderVisible w) (titleScale w) (clonedElements w).

Definition set_nextRef (v : nat) (w : World) : World :=
  Build_World (document w) (mode w) (scrollTop w) (el w) (collapsibleHeaderInitialized w)
    (scrollEl w) (contentScrollCallback w) (intersectionObserver w) v
    (scrollListeners w) (observers w) (console w) (domReads w) (domWrites w)
    (inactiveHeaders w) (borderVisible w) (titleScale w) (clonedElements w).

Definition set_scrollListeners (v : list (Loc * Callback)) (w : World) : World :=
  Build_World (document w) (mode w) (scrollTop w) (el w) (collapsibleHeaderInitialized w)
    (scrollEl w) (contentScrollCallback w) (intersectionObserver w) (nextRef w)
    v (observers w) (console w) (domReads w) (domWrites w)
    (inactiveHeaders w) (borderVisible w) (titleScale w) (clonedElements w).

Definition set_observers (v : gmap nat Observer) (w : World) : World :=
  Build_World (document w) (mode w) (scrollTop w) (el w) (collapsibleHeaderInitialized w)
    (scrollEl w) (contentScrollCallback w) (intersectionObserver w) (nextRef w)
    (scrollListeners w) v (console w) (domReads w) (domWrites w)
    (inactiveHeaders w) (borderVisible w) (titleScale w) (clonedElements w).

Definition set_console (v : list string) (w : World) : World :=
  Build_World (document w) (mode w) (scrollTop w) (el w) (collapsibleHeaderInitialized w)
    (scrollEl w) (contentScrollCallback w) (intersectionObserver w) (nextRef w)
    (scrollListeners w) (observers w) v (domReads w) (domWrites w)
    (inactiveHeaders w) (borderVisible w) (titleScale w) (clonedElements w).

Definition set_domReads (v : list ReadTask) (w : World) : World :=
  Build_World (document w) (mode w) (scrollTop w) (el w) (collapsibleHeaderInitialized w)
    (scrollEl w) (contentScrollCallback w) (intersectionObserver w) (nextRef w)
    (scrollListeners w) (observers w) (console w) v (domWrites w)
    (inactiveHeaders w) (borderVisible w) (titleScale w) (clonedElements w).

Definition set_domWrites (v : list WriteTask) (w : World) : World :=
  Build_World (document w) (mode w) (scrollTop w) (el w) (collapsibleHeaderInitialized w)
    (scrollEl w) (contentScrollCallback w) (intersectionObserver w) (nextRef w)
    (scrollListeners w) (observers w) (console w) (domReads w) v
    (inactiveHeaders w) (borderVisible w) (titleScale w) (clonedElements w).

Definition set_inactiveHeaders (v : gset Loc) (w : World) : World :=
  Build_World (document w) (mode w) (scrollTop w) (el w) (collapsibleHeaderInitialized w)
    (scrollEl w) (contentScrollCallback w) (intersectionObserver w) (nextRef w)
    (scrollListeners w) (observers w) (console w) (domReads w) (domWrites w)
    v (borderVisible w) (titleScale w) (clonedElements w).

Definition set_borderVisible (v : gset Loc) (w : World) : World :=
  Build_World (document w) (mode w) (scrollTop w) (el w) (collapsibleHeaderInitialized w)
    (scrollEl w) (contentScrollCallback w) (intersectionObserver w) (nextRef w)
    (scrollListeners w) (observers w) (console w) (domReads w) (domWrites w)
    (inactiveHeaders w) v (titleScale w) (clonedElements w).

Definition set_titleScale (v : option Q) (w : World) : World :=
  Build_World (document w) (mode w) (scrollTop w) (el w) (collapsibleHeaderInitialized w)
    (scrollEl w) (contentScrollCallback w) (intersectionObserver w) (nextRef w)
    (scrollListeners w) (observers w) (console w) (domReads w) (domWrites w)
    (inactiveHeaders w) (borderVisible w) v (clonedElements w).

Definition set_clonedElements (v : list string) (w : World) : World :=
  Build_World (document w) (mode w) (scrollTop w) (el w) (collapsibleHeaderInitialized w)
    (scrollEl w) (contentScrollCallback w) (intersectionObserver w) (nextRef w)
    (scrollListeners w) (observers w) (console w) (domReads w) (domWrites w)
    (inactiveHeaders w) (borderVisible w) (titleScale w) v.

(** ** Computations: state, and exceptions that keep the state *)

Inductive Outcome (A : Type) : Type :=
  | Return (a : A) (w : World)
  | Throw (error : string) (w : World).
Arguments Return {A} a w.
Arguments Throw {A} error w.

Definition M (A : Type) : Type := World -> Outcome A.

Definition ret {A} (a : A) : M A := fun w => Return a w.

Definition bind {A B} (c : M A) (k : A -> M B) : M B :=
  fun w => match c w with
           | Return a w' => k a w'
           | Throw e w' => Throw e w'
           end.

Definition throw {A} (e : string) : M A := fun w => Throw e w.
Definition gets {A} (f : World -> A) : M A := fun w => Return (f w) w.
Definition modify (f : World -> World) : M unit := fun w => Return tt (f w).

Declare Scope js_scope.
Delimit Scope js_scope with js.
Notation "x <- c ;; k" := (bind c (fun x => k))
  (at level 100, c at next level, right associativity) : js_scope.
Notation "c ;; k" := (bind c (fun _ => k))
  (at level 100, right associativity) : js_scope.

(** The state a computation leaves, whether it returned or threw. *)
Definition finalWorld {A} (o : Outcome A) : World :=
  match o with
  | Return _ w => w
  | Throw _ w => w
  end.

Definition returns {A} (o : Outcome A) : bool :=
  match o with
  | Return _ _ => true
  | Throw _ _ => false
  end.

Definition exec {A} (c : M A) (w : World) : World := finalWorld (c w).

Local Open Scope string_scope.
Local Open Scope list_scope.
Local Open Scope Z_scope.
Local Open Scope js_scope.

(** ** The platform: scheduler, console, event targets, observers *)

Module Platform.

(** Stencil's [readTask] and [writeTask] queue the callback for the next
    frame. *)
Definition readTask (t : ReadTask) : M unit :=
  modify (fun w => set_domReads (domReads w ++ [t]) w).

Definition writeTask (t : WriteTask) : M unit :=
  modify (fun w => set_domWrites (domWrites w ++ [t]) w).

Definition consoleError (msg : string) : M unit :=
  modify (fun w => set_console (console w ++ [msg]) w).

(** Evaluating an arrow function allocates a new function object. *)
Definition newCallback (c : Closure) : M Callback :=
  fun w => Return {| ref := nextRef w; code := c |} (set_nextRef (S (nextRef w)) w).

Definition sameListener (target : Loc) (cb : Callback) (l : Loc * Callback) : bool :=
  bool_decide (fst l = target) && Nat.eqb (ref (snd l)) (ref cb).

(** [target.addEventListener('scroll', cb)]; a listener that is already
    registered on the target is not added again. *)
Definition addEventListener (target : Loc) (cb : Callback) : M unit :=
  modify (fun w =>
    if existsb (sameListener target cb) (scrollListeners w) then w
    else set_scrollListeners (scrollListeners w ++ [(target, cb)]) w).

(** [target.removeEventListener('scroll', cb)]. *)
Definition removeEventListener (target : Loc) (cb : Callback) : M unit :=
  modify (fun w =>
    set_scrollListeners
      (List.filter (fun l => negb (sameListener target cb l)) (scrollListeners w)) w).

(** [new IntersectionObserver(cb, { threshold, rootMargin })]. *)
Definition newIntersectionObserver (cb : Callback) (th : Q) (margin : string) : M nat :=
  fun w =>
    let o := {| callback := cb; threshold := th; rootMargin := margin; targets := [] |} in
    Return (nextRef w)
      (set_observers (<[nextRef w := o]> (observers w)) (set_nextRef (S (nextRef w)) w)).

Definition addTarget (t : Loc) (o : Observer) : Observer :=
  {| callback := callback o; threshold := threshold o; rootMargin := rootMargin o;
     targets := if bool_decide (t ∈ targets o) then targets o else targets o ++ [t] |}.

Definition clearTargets (o : Observer) : Observer :=
  {| callback := callback o; threshold := threshold o; rootMargin := rootMargin o;
     targets := [] |}.

(** [observer.observe(target)] and [observer.disconnect()]. *)
Definition observe (o : nat) (target : Loc) : M unit :=
  modify (fun w => set_observers (alter (addTarget target) o (observers w)) w).

Definition disconnect (o : nat) : M unit :=
  modify (fun w => set_observers (alter clearTargets o (observers w)) w).

(** An observer is live while it observes something. *)
Definition live (o : Observer) : bool :=
  match targets o with
  | [] => false
  | _ :: _ => true
  end.

Definition liveObservers (w : World) : list (nat * Observer) :=
  List.filter (fun io => live (snd io)) (map_to_list (observers w)).

(** Modelled from the spec: the scroll element of an ion-content, whose
    component is not among the sources: a scrollable content region gives
    its scrollable element, when it has one.  The scroll element is
    referred to through the content it belongs to. *)
Definition scrollElementOf (doc : Element) (contentEl : Loc) : option Loc :=
  match nodeAt doc contentEl with
  | Some e => if scrollElement e then Some contentEl else None
  | None => None
  end.

(** Modelled from the spec: [getScrollElement] of ion-content, which is
    not among the sources. *)
Definition getScrollElement (contentEl : Loc) : M (option Loc) :=
  gets (fun w => scrollElementOf (document w) contentEl).

(** A number in a template literal. *)
Definition numberToString (n : Z) : string :=
  NilZero.string_of_int (Z.to_int n).

(** The pixels of the first (top) component of a root margin. *)
Fixpoint untilPx (s : string) : option string :=
  match s with
  | EmptyString => None
  | String "p"%char (String "x"%char _) => Some EmptyString
  | String c s' => option_map (String c) (untilPx s')
  end.

Definition rootMarginTop (margin : string) : option Z :=
  match untilPx margin with
  | Some digits => option_map Z.of_int (NilZero.int_of_string digits)
  | None => None
  end.

End Platform.

Import Platform.

(** ** header.utils *)

Module Utils.

(** Modelled from the spec: two constants of header.utils, which is not
    among the sources, that the spec refers to but does not give: the
    intersection-ratio cutoff near the threshold and the minimum scale of
    the title. *)
Class Constants : Type :=
  { cutoff : Q;
    minScale : Q }.

(** Modelled from the spec: [createHeaderIndex] of header.utils, which is
    not among the sources.  A header with no toolbar has no index; the
    toolbars are indexed in document order and only the first one carries
    its title.  Mirrors are kept outside the document tree
    ([clonedElements]), so every title found here is an original. *)
Definition createHeaderIndex (doc : Element) (header : Loc) : option HeaderIndex :=
  match querySelectorAll doc header [Tag "ion-toolbar"] with
  | [] => None
  | first :: rest =>
      Some {| headerEl := header;
              toolbars :=
                {| toolbarEl := first;
                   ionTitleEl := querySelector doc first [Tag "ion-title"] |}
                :: map (fun t => {| toolbarEl := t; ionTitleEl := None |}) rest |}
  end.

(** Modelled from the spec: [setHeaderActive] of header.utils, which is
    not among the sources: it sets the active flag of the header, which is
    a CSS-facing flag on the header's root element.  A header that was
    never deactivated renders as usual and so is active. *)
Definition setHeaderActive (headerIndex : HeaderIndex) (active : bool) : M unit :=
  modify (fun w =>
    set_inactiveHeaders
      (if active then inactiveHeaders w ∖ {[ headerEl headerIndex ]}
       else inactiveHeaders w ∪ {[ headerEl headerIndex ]}) w).

(** Modelled from the spec: the active flag of a header, as
    [setHeaderActive] leaves it. *)
Definition isActive (w : World) (header : Loc) : bool :=
  bool_decide (header ∉ inactiveHeaders w).

(** Modelled from the spec: [handleToolbarIntersection] of header.utils,
    which is not among the sources.  When the ratio of the condensing
    toolbar is below the cutoff the primary header becomes active and the
    condensing header inactive, and the other way round otherwise. *)
Definition handleToolbarIntersection `{Constants} (ev : IntersectionEntry)
    (mainHeaderIndex scrollHeaderIndex : HeaderIndex) : M unit :=
  if Qle_bool cutoff (intersectionRatio ev) then
    setHeaderActive mainHeaderIndex false ;;
    setHeaderActive scrollHeaderIndex true
  else
    setHeaderActive mainHeaderIndex true ;;
    setHeaderActive scrollHeaderIndex false.

(** Modelled from the spec: [clamp] of utils/helpers, which is not among
    the sources. *)
Definition clamp (lo n hi : Q) : Q := Qmax lo (Qmin n hi).

(** Modelled from the spec: the scale factor that [handleContentScroll] of
    header.utils (not among the sources) derives: interpolated from 1 at
    the top of the content to [minScale] once the remaining height has
    been scrolled, clamped to [minScale, 1]. *)
Definition scaleFactor `{Constants} (remainingHeight : Z) (top : Q) : Q :=
  clamp minScale (1 - (1 - minScale) * (top / inject_Z remainingHeight)) 1.

(** Modelled from the spec: [handleContentScroll] of header.utils, which
    is not among the sources.  It scales the mirrored title and shows the
    border of the last toolbar of the primary header once the content is
    scrolled; without a scroll container it does nothing. *)
Definition handleContentScroll `{Constants} (scrollEl : option Loc)
    (mainHeaderIndex scrollHeaderIndex : HeaderIndex) (remainingHeight : Z) : M unit :=
  match scrollEl with
  | None => ret tt
  | Some s =>
      top <- gets (fun w => default 0%Q (scrollTop w !! s)) ;;
      modify (set_titleScale (Some (scaleFactor remainingHeight top))) ;;
      match last (toolbars mainHeaderIndex) with
      | None => ret tt
      | Some t =>
          modify (fun w =>
            set_borderVisible
              (if Qle_bool top 0 then borderVisible w ∖ {[ toolbarEl t ]}
               else borderVisible w ∪ {[ toolbarEl t ]}) w)
      end
  end.

(** Modelled from the spec: [cloneElement] of header.utils, which is not
    among the sources: it makes the mirror of the elements with the given
    tag name, unless that mirror already exists. *)
Definition cloneElement (tagName : string) : M unit :=
  modify (fun w =>
    if bool_decide (tagName ∈ clonedElements w) then w
    else set_clonedElements (clonedElements w ++ [tagName]) w).

End Utils.

Import Utils.

(** ** The component *)

Module Header.

Section Component.
Context `{Constants}.

(** [this.collapse]: the property of the component's own element. *)
Definition thisCollapse (w : World) : option string :=
  collapseAt (document w) (el w).

(** [const hasCollapse = this.collapse === 'condense';
     const canCollapse = (hasCollapse && getIonMode(this) === 'ios') ? hasCollapse : false;] *)
Definition hasCollapse (w : World) : bool :=
  bool_decide (thisCollapse w = Some "condense").

Definition isIos (m : Mode) : bool :=
  match m with
  | ios => true
  | md => false
  end.

Definition canCollapse (w : World) : bool :=
  if hasCollapse w && isIos (mode w) then hasCollapse w else false.

(** [const tabs = this.el.closest('ion-tabs');
     const page = this.el.closest('ion-app,ion-page,.ion-page,page-inner');
     const pageEl = (tabs) ? tabs : (page) ? page : null;] *)
Definition tabsOf (w : World) : option Loc :=
  closest (document w) (el w) [Tag "ion-tabs"].

Definition pageOf (w : World) : option Loc :=
  closest (document w) (el w)
    [Tag "ion-app"; Tag "ion-page"; Class "ion-page"; Tag "page-inner"].

Definition pageElOf (w : World) : option Loc :=
  match tabsOf w with
  | Some tabs => Some tabs
  | None =>
      match pageOf w with
      | Some page => Some page
      | None => None
      end
  end.

(** [const contentEl = (pageEl) ? pageEl.querySelector('ion-content') : null;] *)
Definition contentElOf (w : World) (pageEl : option Loc) : option Loc :=
  match pageEl with
  | Some p => querySelector (document w) p [Tag "ion-content"]
  | None => None
  end.

(** [const headers = pageEl.querySelectorAll('ion-header');
     const mainHeader = Array.from(headers).find((header: any) => header.collapse !== 'condense');] *)
Definition notCondense (doc : Element) (header : Loc) : bool :=
  negb (bool_decide (collapseAt doc header = Some "condense")).

Definition mainHeaderOf (doc : Element) (pageEl : Loc) : option Loc :=
  List.find (notCondense doc) (querySelectorAll doc pageEl [Tag "ion-header"]).

(** [let remainingHeight = 0;
     for (let i = 1; i <= scrollHeaderIndex.toolbars.length - 1; i++) {
       remainingHeight += scrollHeaderIndex.toolbars[i].el.clientHeight;
     }]
    Reading [.el] of a toolbar that is not there throws. *)
Fixpoint remainingHeightLoop (doc : Element) (tbs : list ToolbarIndex)
    (fuel : nat) (i : Z) (remainingHeight : Z) : M Z :=
  match fuel with
  | O => ret remainingHeight
  | S fuel' =>
      if i <=? Z.of_nat (length tbs) - 1 then
        match tbs !! Z.to_nat i with
        | Some t =>
            remainingHeightLoop doc tbs fuel' (i + 1)
              (remainingHeight + clientHeightAt doc (toolbarEl t))
        | None => throw "TypeError: Cannot read property 'el' of undefined"
        end
      else ret remainingHeight
  end.

Definition remainingHeightOf (doc : Element) (scrollHeaderIndex : HeaderIndex) : M Z :=
  remainingHeightLoop doc (toolbars scrollHeaderIndex)
    (length (toolbars scrollHeaderIndex)) 1 0.

(** The inner [readTask] of [setupCollapsibleHeader]. *)
Definition observeRead (mainHeaderIndex scrollHeaderIndex : HeaderIndex)
    (toolbarIntersection : Callback) : M unit :=
  mainHeaderHeight <- gets (fun w => clientHeightAt (document w) (headerEl mainHeaderIndex)) ;;
  o <- newIntersectionObserver toolbarIntersection 0.25%Q
         ("-" ++ numberToString mainHeaderHeight ++ "px 0px 0px 0px")%string ;;
  modify (set_intersectionObserver (Some o)) ;;
  match toolbars scrollHeaderIndex !! 0%nat with
  | Some t => observe o (toolbarEl t)
  | None => throw "TypeError: Cannot read property 'el' of undefined"
  end.

(** The outer [readTask] of [setupCollapsibleHeader]. *)
Definition setupRead (pageEl : Loc) : M unit :=
  mainHeader <- gets (fun w => mainHeaderOf (document w) pageEl) ;;
  scroll <- gets scrollEl ;;
  match mainHeader, scroll with
  | Some mainHeader, Some _ =>
      mainHeaderIndex <- gets (fun w => createHeaderIndex (document w) mainHeader) ;;
      scrollHeaderIndex <- gets (fun w => createHeaderIndex (document w) (el w)) ;;
      match mainHeaderIndex, scrollHeaderIndex with
      | Some mainHeaderIndex, Some scrollHeaderIndex =>
          setHeaderActive mainHeaderIndex false ;;
          doc <- gets document ;;
          remainingHeight <- remainingHeightOf doc scrollHeaderIndex ;;
          toolbarIntersection <-
            newCallback (ToolbarIntersection mainHeaderIndex scrollHeaderIndex) ;;
          readTask (ObserveRead mainHeaderIndex scrollHeaderIndex toolbarIntersection) ;;
          cb <- newCallback (ContentScroll mainHeaderIndex scrollHeaderIndex remainingHeight) ;;
          modify (set_contentScrollCallback (Some cb)) ;;
          scroll' <- gets scrollEl ;;
          match scroll' with
          | Some s => addEventListener s cb
          | None => throw "TypeError: Cannot read property 'addEventListener' of undefined"
          end
      | _, _ => ret tt
      end
  | _, _ => ret tt
  end.

(** The [writeTask] of [setupCollapsibleHeader]. *)
Definition cloneWrite : M unit :=
  cloneElement "ion-title" ;;
  cloneElement "ion-back-button".

Definition missingContent : string :=
  "ion-header requires a content to collapse, make sure there is an ion-content.".

(** [setupCollapsibleHeader] is [async]: it runs up to
    [await contentEl.getScrollElement()], where the hook that called it
    is suspended, and goes on when the promise has resolved.  What the
    rest of the function needs is kept in the suspended hook: the page
    container and the scroll element the promise resolves to. *)
Record Suspended : Type :=
  { suspendedPageEl : Loc;
    resolvedScrollEl : option Loc }.

(** [if (!contentEl || !pageEl) { console.error(...); return; }
     ... await contentEl.getScrollElement()]: the function up to its
    [await].  It gives the suspended hook, or nothing when it returned. *)
Definition setupUntilAwait (contentEl pageEl : option Loc) : M (option Suspended) :=
  match contentEl, pageEl with
  | Some contentEl, Some pageEl =>
      s <- getScrollElement contentEl ;;
      ret (Some {| suspendedPageEl := pageEl; resolvedScrollEl := s |})
  | _, _ =>
      consoleError missingContent ;;
      ret None
  end.

(** [this.scrollEl = ...; readTask(...); writeTask(...);
     this.collapsibleHeaderInitialized = true;]: the function from its
    [await] on. *)
Definition setupAfterAwait (k : Suspended) : M unit :=
  modify (set_scrollEl (resolvedScrollEl k)) ;;
  readTask (SetupRead (suspendedPageEl k)) ;;
  writeTask CloneWrite ;;
  modify (set_collapsibleHeaderInitialized true).

Definition resume (k : option Suspended) : M unit :=
  match k with
  | Some k => setupAfterAwait k
  | None => ret tt
  end.

(** [setupCollapsibleHeader] when nothing else runs between its [await]
    and the rest of it. *)
Definition setupCollapsibleHeader (contentEl pageEl : option Loc) : M unit :=
  k <- setupUntilAwait contentEl pageEl ;;
  resume k.

Definition destroyCollapsibleHeader : M unit :=
  o <- gets intersectionObserver ;;
  match o with
  | Some o =>
      disconnect o ;;
      modify (set_intersectionObserver None)
  | None => ret tt
  end ;;
  s <- gets scrollEl ;;
  cb <- gets contentScrollCallback ;;
  match s, cb with
  | Some s, Some cb =>
      removeEventListener s cb ;;
      modify (set_contentScrollCallback None)
  | _, _ => ret tt
  end.

(** [checkCollapsibleHeader] up to the [await] of the setup it calls: the
    teardown is synchronous, the setup suspends the hook. *)
Definition checkUntilAwait : M (option Suspended) :=
  can <- gets canCollapse ;;
  initialized <- gets collapsibleHeaderInitialized ;;
  if negb can && initialized then
    destroyCollapsibleHeader ;;
    ret None
  else if can && negb initialized then
    pageEl <- gets pageElOf ;;
    contentEl <- gets (fun w => contentElOf w pageEl) ;;
    setupUntilAwait contentEl pageEl
  else ret None.

(** [checkCollapsibleHeader] when nothing else runs between the [await]
    and the rest of the setup. *)
Definition checkCollapsibleHeader : M unit :=
  k <- checkUntilAwait ;;
  resume k.

Definition componentDidLoad : M unit := checkCollapsibleHeader.
Definition componentDidUpdate : M unit := checkCollapsibleHeader.
Definition componentDidUnload : M unit := destroyCollapsibleHeader.

(** ** One frame of the scheduler, and the events of a page *)

Definition runReadTask (t : ReadTask) : M unit :=
  match t with
  | SetupRead pageEl => setupRead pageEl
  | ObserveRead mainHeaderIndex scrollHeaderIndex toolbarIntersection =>
      observeRead mainHeaderIndex scrollHeaderIndex toolbarIntersection
  end.

Definition runWriteTask (t : WriteTask) : M unit :=
  match t with
  | CloneWrite => cloneWrite
  end.

(** The read queue is consumed from the front; a task may queue more. *)
Fixpoint flushReads (fuel : nat) : M unit :=
  fun w =>
    match fuel, domReads w with
    | S fuel', t :: rest =>
        (modify (set_domReads rest) ;; runReadTask t ;; flushReads fuel') w
    | _, _ => Return tt w
    end.

Fixpoint flushWrites (fuel : nat) : M unit :=
  fun w =>
    match fuel, domWrites w with
    | S fuel', t :: rest =>
        (modify (set_domWrites rest) ;; runWriteTask t ;; flushWrites fuel') w
    | _, _ => Return tt w
    end.

(** A setup task queues at most one task, which queues none. *)
Definition frame : M unit :=
  n <- gets (fun w => length (domReads w)) ;;
  flushReads (2 * n) ;;
  m <- gets (fun w => length (domWrites w)) ;;
  flushWrites m.

(** Calling one of the component's function objects:
    [(ev: any) => { handleToolbarIntersection(ev, mainHeaderIndex, scrollHeaderIndex); }] and
    [() => { handleContentScroll(this.scrollEl!, mainHeaderIndex, scrollHeaderIndex, remainingHeight); }].
    The first reads its argument, which a scroll event cannot stand for;
    the second ignores it. *)
Definition call (cb : Callback) (arg : Argument) : M unit :=
  match code cb with
  | ToolbarIntersection mainHeaderIndex scrollHeaderIndex =>
      match arg with
      | Entry ev => handleToolbarIntersection ev mainHeaderIndex scrollHeaderIndex
      | ScrollEvent => throw "TypeError: not an intersection entry"
      end
  | ContentScroll mainHeaderIndex scrollHeaderIndex remainingHeight =>
      s <- gets scrollEl ;;
      handleContentScroll s mainHeaderIndex scrollHeaderIndex remainingHeight
  end.

Fixpoint callAll (cbs : list Callback) (arg : Argument) : M unit :=
  match cbs with
  | [] => ret tt
  | cb :: cbs' => call cb arg ;; callAll cbs' arg
  end.

Definition listenersOn (target : Loc) (w : World) : list Callback :=
  map snd (List.filter (fun l => bool_decide (fst l = target)) (scrollListeners w)).

(** What can happen to the component when its hooks do not overlap: a
    lifecycle hook that runs to its end, followed by the frame that runs
    the tasks it queued, a new rendering of the page, a scroll of a scroll
    element, and a visibility change reported by a live observer.  The
    hooks that overlap are the [Action]s below. *)
Inductive Event : Type :=
  | DidLoad
  | DidUpdate
  | DidUnload
  | Render (doc : Element) (m : Mode)
  | Scroll (target : Loc) (top : Q)
  | Intersection (observer : nat) (entry : IntersectionEntry).

Definition step (e : Event) : M unit :=
  match e with
  | DidLoad => componentDidLoad ;; frame
  | DidUpdate => componentDidUpdate ;; frame
  | DidUnload => componentDidUnload ;; frame
  | Render doc m => modify (set_page doc m)
  | Scroll target top =>
      modify (fun w => set_scrollTop (<[target := top]> (scrollTop w)) w) ;;
      cbs <- gets (listenersOn target) ;;
      callAll cbs ScrollEvent
  | Intersection o entry =>
      ob <- gets (fun w => observers w !! o) ;;
      match ob with
      | Some ob => if live ob then call (callback ob) (Entry entry) else ret tt
      | None => ret tt
      end
  end.

Definition run (es : list Event) (w : World) : World :=
  fold_left (fun w e => exec (step e) w) es w.

(** The states of the controller, as the spec names them. *)
Inductive State : Type := Disabled | Uninitialized | Active.

Definition state (w : World) : State :=
  if collapsibleHeaderInitialized w then Active
  else if canCollapse w then Uninitialized
  else Disabled.

(** ** Hooks that overlap *)

(** The hooks are [async] and nothing makes one wait for another: while
    a hook is suspended at the [await] of the setup, another hook, the
    unload, a frame of the scheduler or an event of the page can run.
    The component together with its suspended hooks, oldest first: *)
Record Async : Type :=
  { world : World;
    suspended : list Suspended }.

(** What can happen, one piece at a time: [componentDidLoad] or
    [componentDidUpdate] is called and runs up to its [await]; the
    promise of a suspended hook resolves and the hook runs to its end;
    [componentDidUnload], which is synchronous and cancels nothing; the
    scheduler runs the queued tasks; the events of the page. *)
Inductive Action : Type :=
  | HookCalled
  | HookResumed (i : nat)
  | Unloaded
  | FrameRun
  | Rendered (doc : Element) (m : Mode)
  | Scrolled (target : Loc) (top : Q)
  | Reported (observer : nat) (entry : IntersectionEntry).

Definition act (a : Action) (c : Async) : Async :=
  match a with
  | HookCalled =>
      match checkUntilAwait (world c) with
      | Return k w => {| world := w; suspended := suspended c ++ option_list k |}
      | Throw _ w => {| world := w; suspended := suspended c |}
      end
  | HookResumed i =>
      match suspended c !! i with
      | Some k =>
          {| world := exec (setupAfterAwait k) (world c);
             suspended := delete i (suspended c) |}
      | None => c
      end
  | Unloaded =>
      {| world := exec componentDidUnload (world c); suspended := suspended c |}
  | FrameRun =>
      {| world := exec frame (world c); suspended := suspended c |}
  | Rendered doc m =>
      {| world := exec (step (Render doc m)) (world c); suspended := suspended c |}
  | Scrolled target top =>
      {| world := exec (step (Scroll target top)) (world c); suspended := suspended c |}
  | Reported o entry =>
      {| world := exec (step (Intersection o entry)) (world c); suspended := suspended c |}
  end.

Definition acts (l : list Action) (c : Async) : Async :=
  fold_left (fun c a => act a c) l c.

Definition start (doc : Element) (m : Mode) (at_ : Loc) : Async :=
  {| world := fresh doc m at_; suspended := [] |}.

(** The actions of an event whose hook nothing overlaps: the hook is
    called, resumes at once, and its frame runs. *)
Definition serial (e : Event) : list Action :=
  match e with
  | DidLoad | DidUpdate => [HookCalled; HookResumed 0; FrameRun]
  | DidUnload => [Unloaded; FrameRun]
  | Render doc m => [Rendered doc m]
  | Scroll target top => [Scrolled target top]
  | Intersection o entry => [Reported o entry]
  end.

(** Two hooks called back to back, as when an update follows the load
    before the promise of the load has resolved: both run up to their
    [await], then both resume in the order they were called, then the
    frame runs. *)
Definition overlappingHooks : list Action :=
  [HookCalled; HookCalled; HookResumed 0; HookResumed 0; FrameRun].

End Component.

End Header.

Import Header.

(** ** Notions the statements use *)

(** The sum of the heights of the toolbars at indices 1 to n-1. *)
Definition heightAtIndex (doc : Element) (tbs : list ToolbarIndex) (i : nat) : Z :=
  match tbs !! i with
  | Some t => clientHeightAt doc (toolbarEl t)
  | None => 0
  end.

Definition heightsBelowFirst (doc : Element) (tbs : list ToolbarIndex) : Z :=
  foldr Z.add 0 (map (heightAtIndex doc tbs) (seq 1 (length tbs - 1))).


Definition isUpdate (e : Event) : bool :=
  match e with
  | DidLoad | DidUpdate => true
  | _ => false
  end.

Definition isIntersection (e : Event) : bool :=
  match e with
  | Intersection _ _ => true
  | _ => false
  end.

(** The observer that the inner read task creates. *)
Definition observerOf (main scroll : HeaderIndex) (margin : string) (ts : list Loc) : Observer :=
  {| callback := {| ref := 0; code := ToolbarIntersection main scroll |};
     threshold := 0.25%Q; rootMargin := margin; targets := ts |}.

(** The world after a setup whose read task found nothing to index, and
    after one that wired the scroll listener and the observer. *)
Definition unindexed (w : World) (s : option Loc) : World :=
  set_clonedElements ["ion-title"; "ion-back-button"]
    (set_collapsibleHeaderInitialized true (set_scrollEl s w)).

Definition wired (w : World) (s : Loc) (main scroll : HeaderIndex) (first : ToolbarIndex) : World :=
  let doc := document w in
  let cb := {| ref := 1;
               code := ContentScroll main scroll (heightsBelowFirst doc (toolbars scroll)) |} in
  let margin :=
    ("-" ++ numberToString (clientHeightAt doc (headerEl main)) ++ "px 0px 0px 0px")%string in
  Build_World doc (mode w) (scrollTop w) (el w) true (Some s) (Some cb) (Some 2%nat) 3
    [(s, cb)] {[ 2%nat := observerOf main scroll margin [toolbarEl first] ]}
    (console w) [] [] {[ headerEl main ]} ∅ None ["ion-title"; "ion-back-button"].

(** The four ways an update cycle of a controller that is not
    initialized can end. *)
Inductive UpdateOutcome (w : World) : World -> Prop :=
  | update_disabled :
      canCollapse w = false ->
      UpdateOutcome w w
  | update_no_content :
      canCollapse w = true ->
      contentElOf w (pageElOf w) = None ->
      UpdateOutcome w (set_console (console w ++ [missingContent]) w)
  | update_unindexed p c :
      canCollapse w = true ->
      pageElOf w = Some p ->
      contentElOf w (Some p) = Some c ->
      (mainHeaderOf (document w) p = None \/
       scrollElementOf (document w) c = None \/
       exists mh, mainHeaderOf (document w) p = Some mh /\
         (createHeaderIndex (document w) mh = None \/
          createHeaderIndex (document w) (el w) = None)) ->
      UpdateOutcome w (unindexed w (scrollElementOf (document w) c))
  | update_wired p c s mh main scroll first rest :
      canCollapse w = true ->
      pageElOf w = Some p ->
      contentElOf w (Some p) = Some c ->
      scrollElementOf (document w) c = Some s ->
      mainHeaderOf (document w) p = Some mh ->
      createHeaderIndex (document w) mh = Some main ->
      createHeaderIndex (document w) (el w) = Some scroll ->
      toolbars scroll = first :: rest ->
      UpdateOutcome w (wired w s main scroll first).

(** The premises of a successful setup. *)
Definition Wires (w w' : World) : Prop :=
  collapsibleHeaderInitialized w = false /\
  exists p c s mh main scroll first rest,
    canCollapse w = true /\
    pageElOf w = Some p /\
    contentElOf w (Some p) = Some c /\
    scrollElementOf (document w) c = Some s /\
    mainHeaderOf (document w) p = Some mh /\
    createHeaderIndex (document w) mh = Some main /\
    createHeaderIndex (document w) (el w) = Some scroll /\
    toolbars scroll = first :: rest /\
    w' = wired w s main scroll first.

(** The two active flags of a wired controller: exactly one header is
    inactive; while no intersection has been reported it is the primary
    one. *)
Definition exclusive (pristine : bool) (main scroll : Loc) (inact : gset Loc) : Prop :=
  if pristine then main ∈ inact /\ scroll ∉ inact
  else main ∈ inact <-> scroll ∉ inact.

(** The worlds a controller can be in: never set up; set up without an
    index; wired; wired and torn down. *)
Inductive Shape (pristine : bool) : World -> Prop :=
  | shape_idle doc m st at_ cons :
      Shape pristine
        (Build_World doc m st at_ false None None None 0 [] ∅ cons [] [] ∅ ∅ None [])
  | shape_unindexed doc m st at_ s cons :
      Shape pristine
        (Build_World doc m st at_ true s None None 0 [] ∅ cons [] [] ∅ ∅ None
           ["ion-title"; "ion-back-button"])
  | shape_live doc m st at_ s cons main scroll first rest rh margin inact border scale :
      toolbars scroll = first :: rest ->
      headerEl main <> headerEl scroll ->
      exclusive pristine (headerEl main) (headerEl scroll) inact ->
      Shape pristine
        (Build_World doc m st at_ true (Some s)
           (Some {| ref := 1; code := ContentScroll main scroll rh |}) (Some 2%nat) 3
           [(s, {| ref := 1; code := ContentScroll main scroll rh |})]
           {[ 2%nat := observerOf main scroll margin [toolbarEl first] ]}
           cons [] [] inact border scale ["ion-title"; "ion-back-button"])
  | shape_torn doc m st at_ s cons main scroll margin inact border scale :
      headerEl main <> headerEl scroll ->
      exclusive pristine (headerEl main) (headerEl scroll) inact ->
      Shape pristine
        (Build_World doc m st at_ true (Some s) None None 3 []
           {[ 2%nat := observerOf main scroll margin [] ]}
           cons [] [] inact border scale ["ion-title"; "ion-back-button"]).

(** The controller keeps its initialized flag and its console. *)
Definition Stable (w w' : World) : Prop :=
  collapsibleHeaderInitialized w' = collapsibleHeaderInitialized w /\
  console w' = console w.

(** Nothing of the controller is registered with the browser. *)
Definition Quiet (w : World) : Prop :=
  intersectionObserver w = None /\ contentScrollCallback w = None /\
  scrollListeners w = [] /\ liveObservers w = [].

(** What is registered with the browser is what the fields hold: the
    scroll listeners are the registration of the scroll callback on the
    scroll element, when both are held, and the live observers are the
    observer that is held. *)
Definition Follows (w : World) : Prop :=
  scrollListeners w =
    match scrollEl w, contentScrollCallback w with
    | Some s, Some cb => [(s, cb)]
    | _, _ => []
    end /\
  map fst (liveObservers w) =
    match intersectionObserver w with
    | Some o => [o]
    | None => []
    end.

(** The setup is over: the controller is initialized, no hook is
    suspended and no task is queued. *)
Definition Settled (c : Async) : Prop :=
  collapsibleHeaderInitialized (world c) = true /\ suspended c = [] /\
  domReads (world c) = [] /\ domWrites (world c) = [].

(** The controller and its registrations are the same in two worlds:
    they differ at most in the page, the scroll positions and what
    header.utils writes. *)
Definition SameController (w w' : World) : Prop :=
  el w' = el w /\
  collapsibleHeaderInitialized w' = collapsibleHeaderInitialized w /\
  scrollEl w' = scrollEl w /\
  contentScrollCallback w' = contentScrollCallback w /\
  intersectionObserver w' = intersectionObserver w /\
  nextRef w' = nextRef w /\
  scrollListeners w' = scrollListeners w /\
  observers w' = observers w /\
  console w' = console w /\
  domReads w' = domReads w /\ domWrites w' = domWrites w /\
  clonedElements w' = clonedElements w.

(** What stays as it is once the setup is over. *)
Definition Frozen (w w' : World) : Prop :=
  scrollEl w' = scrollEl w /\ nextRef w' = nextRef w /\
  clonedElements w' = clonedElements w /\
  (contentScrollCallback w' = None \/ contentScrollCallback w' = contentScrollCallback w) /\
  dom (observers w') = dom (observers w).

(** Nothing of the controller is registered and it holds no observer. *)
Definition Released (w : World) : Prop :=
  intersectionObserver w = None /\ scrollListeners w = [] /\ liveObservers w = [].

(** The observer of the inner read task whose callback is the function
    object [r], and the scroll callback that is the function object
    [r]. *)
Definition observerWith (r : nat) (main scroll : HeaderIndex) (margin : string)
    (ts : list Loc) : Observer :=
  {| callback := {| ref := r; code := ToolbarIntersection main scroll |};
     threshold := 0.25%Q; rootMargin := margin; targets := ts |}.

Definition scrollCallbackWith (r : nat) (doc : Element) (main scroll : HeaderIndex) : Callback :=
  {| ref := r; code := ContentScroll main scroll (heightsBelowFirst doc (toolbars scroll)) |}.

(** The world after two hooks that overlapped have both set up: two
    scroll listeners and two observers, of which the controller holds the
    later ones. *)
Definition wiredTwice (w : World) (s : Loc) (main scroll : HeaderIndex)
    (first : ToolbarIndex) : World :=
  let doc := document w in
  let margin :=
    ("-" ++ numberToString (clientHeightAt doc (headerEl main)) ++ "px 0px 0px 0px")%string in
  Build_World doc (mode w) (scrollTop w) (el w) true (Some s)
    (Some (scrollCallbackWith 3 doc main scroll)) (Some 5%nat) 6
    [(s, scrollCallbackWith 1 doc main scroll); (s, scrollCallbackWith 3 doc main scroll)]
    (<[ 5%nat := observerWith 2 main scroll margin [toolbarEl first] ]>
       {[ 4%nat := observerWith 0 main scroll margin [toolbarEl first] ]})
    (console w) [] [] {[ headerEl main ]} ∅ None ["ion-title"; "ion-back-button"].

(** The same world after the unload: the later listener and observer are
    Released, the earlier ones stay. *)
Definition wiredTwiceUnloaded (w : World) (s : Loc) (main scroll : HeaderIndex)
    (first : ToolbarIndex) : World :=
  let doc := document w in
  let margin :=
    ("-" ++ numberToString (clientHeightAt doc (headerEl main)) ++ "px 0px 0px 0px")%string in
  Build_World doc (mode w) (scrollTop w) (el w) true (Some s) None None 6
    [(s, scrollCallbackWith 1 doc main scroll)]
    (<[ 5%nat := observerWith 2 main scroll margin [] ]>
       {[ 4%nat := observerWith 0 main scroll margin [toolbarEl first] ]})
    (console w) [] [] {[ headerEl main ]} ∅ None ["ion-title"; "ion-back-button"].

(** The soft failure as the specification words it: when the content or
    the primary header cannot be located, the update cycle reports it,
    sets nothing up and leaves the controller not initialized. *)
Definition softFailureAsStated `{Constants} (w : World) : Prop :=
  canCollapse w = true ->
  collapsibleHeaderInitialized w = false ->
  contentElOf w (pageElOf w) = None \/
  (exists p, pageElOf w = Some p /\ mainHeaderOf (document w) p = None) ->
  let w' := exec (step DidUpdate) w in
  returns (step DidUpdate w) = true /\
  console w' = console w ++ [missingContent] /\
  clonedElements w' = clonedElements w /\
  collapsibleHeaderInitialized w' = false.

(** ** The rendered host *)

(** The name of a mode, as [getIonMode] returns it. *)
Definition modeName (m : Mode) : string :=
  match m with
  | ios => "ios"
  | md => "md"
  end.

(** [this.collapse || 'none']: an unset or empty [collapse] renders as
    ['none']. *)
Definition renderedCollapse (collapse : option string) : string :=
  match collapse with
  | Some EmptyString => "none"
  | Some c => c
  | None => "none"
  end.

(** What [render] gives the [Host]: its role and its class map.  The
    keys of the object literal are set in the order they are written, a
    later one overwriting an equal earlier one. *)
Record Host : Type :=
  { role : string;
    class : gmap string bool }.

(** [render()], with [this.translucent] as an argument. *)
Definition render (w : World) (translucent : bool) : Host :=
  let mode := modeName (mode w) in
  let collapse := renderedCollapse (thisCollapse w) in
  {| role := "banner";
     class :=
       <[ ("header-translucent-" ++ mode)%string := translucent ]>
       (<[ ("header-collapse-" ++ collapse)%string := true ]>
       (<[ "header-translucent" := translucent ]>
       (<[ ("header-" ++ mode)%string := true ]>
       (<[ mode := true ]> ∅)))) |}.

(** The classes the host carries: the keys whose value is [true]. *)
Definition hasClass (h : Host) (name : string) : bool :=
  bool_decide (class h !! name = Some true).

(** A teardown that comes between a hook and the frame that runs the
    tasks the hook queued. *)
Definition loadThenUnloadBeforeFrame : M unit :=
  componentDidLoad ;; componentDidUnload ;; frame.

(** ** Example pages *)

Definition element (tag : string) (c : option string) (h : N) (cs : list Element) : Element :=
  Node tag [] c h false cs.

(** The page of the documentation: a primary header, and in the content a
    condensing header with a large title and a search toolbar. *)
Definition settingsPage : Element :=
  element "ion-app" None 800
    [ element "ion-header" None 44
        [ element "ion-toolbar" None 44 [ element "ion-title" None 20 [] ] ];
      Node "ion-content" [] None 700 true
        [ element "ion-header" (Some "condense") 112
            [ element "ion-toolbar" None 52 [ element "ion-title" None 40 [] ];
              element "ion-toolbar" None 60 [ element "ion-searchbar" None 36 [] ] ] ] ].

Definition settingsHeader : Loc := [1; 0]%nat.

(** The indexes of the two headers of the documentation's page. *)
Definition settingsMain : HeaderIndex :=
  {| headerEl := [0%nat];
     toolbars := [ {| toolbarEl := [0; 0]%nat; ionTitleEl := Some [0; 0; 0]%nat |} ] |}.

Definition settingsScroll : HeaderIndex :=
  {| headerEl := settingsHeader;
     toolbars := [ {| toolbarEl := [1; 0; 0]%nat; ionTitleEl := Some [1; 0; 0; 0]%nat |};
                   {| toolbarEl := [1; 0; 1]%nat; ionTitleEl := None |} ] |}.

(** The same page without the primary header. *)
Definition noPrimaryPage : Element :=
  element "ion-app" None 800
    [ Node "ion-content" [] None 700 true
        [ element "ion-header" (Some "condense") 112
            [ element "ion-toolbar" None 52 [ element "ion-title" None 40 [] ];
              element "ion-toolbar" None 60 [ element "ion-searchbar" None 36 [] ] ] ] ].

(** The same page without a content: the condensing header sits in the
    page itself. *)
Definition noContentPage : Element :=
  element "ion-app" None 800
    [ element "ion-header" None 44
        [ element "ion-toolbar" None 44 [ element "ion-title" None 20 [] ] ];
      element "ion-header" (Some "condense") 112
        [ element "ion-toolbar" None 52 [ element "ion-title" None 40 [] ] ] ].

(** The page of the documentation with a content that has no scroll
    element. *)
Definition noScrollPage : Element :=
  element "ion-app" None 800
    [ element "ion-header" None 44
        [ element "ion-toolbar" None 44 [ element "ion-title" None 20 [] ] ];
      element "ion-content" None 700
        [ element "ion-header" (Some "condense") 112
            [ element "ion-toolbar" None 52 [ element "ion-title" None 40 [] ];
              element "ion-toolbar" None 60 [ element "ion-searchbar" None 36 [] ] ] ] ].

Definition sampleConstants : Constants :=
  {| cutoff := 1 # 4; minScale := 1 # 2 |}.

(** ** Proof support *)

(** Symbolic evaluation of the component's code on a world whose shape is
    known. *)
Declare Reduction jsred :=
  cbv beta iota zeta delta
    [bind gets modify ret throw exec finalWorld returns
     step componentDidLoad componentDidUpdate componentDidUnload
     checkCollapsibleHeader setupCollapsibleHeader destroyCollapsibleHeader
     checkUntilAwait setupUntilAwait setupAfterAwait resume
     act acts serial overlappingHooks start world suspended fold_left option_list option_rect
     suspendedPageEl resolvedScrollEl
     setupRead observeRead runReadTask runWriteTask frame
     flushReads flushWrites call callAll listenersOn
     readTask writeTask consoleError newCallback addEventListener
     removeEventListener newIntersectionObserver observe disconnect
     getScrollElement setHeaderActive handleToolbarIntersection
     handleContentScroll
     set_page set_scrollTop set_collapsibleHeaderInitialized set_scrollEl
     set_contentScrollCallback set_intersectionObserver set_nextRef
     set_scrollListeners set_observers set_console set_domReads set_domWrites
     set_inactiveHeaders set_borderVisible set_titleScale set_clonedElements
     document mode scrollTop el collapsibleHeaderInitialized scrollEl
     contentScrollCallback intersectionObserver nextRef scrollListeners
     observers console domReads domWrites inactiveHeaders borderVisible
     titleScale clonedElements
     negb andb orb Nat.mul Nat.add length app List.app fst snd
     existsb List.filter map list_fmap fmap
     code ref callback targets threshold rootMargin live].

Ltac js := match goal with |- ?G => let G' := eval jsred in G in change G' end.

(** Case analysis on the shape of a world. *)
Ltac shapes H :=
  destruct H as [doc m st at_ cons|doc m st at_ s cons
                |doc m st at_ s cons main scroll first rest rh margin inact border scale Htb Hne Hex
                |doc m st at_ s cons main scroll margin inact border scale Hne Hex].


(** * Facts about the document *)

Section DomFacts.

(** Induction on a document tree: the children satisfy the property. *)
Lemma Element_tree_ind (P : Element -> Prop) :
  (forall t cl c h s cs, Forall P cs -> P (Node t cl c h s cs)) ->
  forall e, P e.
Proof.
  intros step. fix IH 1. intros [t cl c h s cs]. apply step.
  induction cs as [|c' cs' IHcs]; constructor; [apply IH | exact IHcs].
Qed.

Lemma descendants_forest e : descendants e = forest 0 (childNodes e).
Proof.
  destruct e as [t cl c h s cs]. simpl. generalize 0%nat.
  induction cs as [|c' cs' IHcs]; intros i; simpl; [reflexivity|].
  now rewrite IHcs.
Qed.

Lemma before_irrefl p : ~ before p p.
Proof. induction p as [|i p IH]; simpl; [tauto|]. intros [Hlt|[_ Hb]]; [lia|tauto]. Qed.

Lemma before_trans p q r : before p q -> before q r -> before p r.
Proof.
  revert q r. induction p as [|i p IH]; intros [|j q] [|k r]; simpl; try tauto.
  intros [H1|[-> H1]] [H2|[-> H2]]; [left; lia|left; lia|left; lia|right; split; eauto].
Qed.

Lemma before_app s p q : before (s ++ p) (s ++ q) <-> before p q.
Proof.
  induction s as [|i s IH]; simpl; [tauto|]. rewrite IH. split; [|tauto].
  intros [Hlt|[_ Hb]]; [lia|exact Hb].
Qed.

(** Membership in the traversal: the non-empty positions that denote an
    element. *)
Lemma elem_of_forest cs : forall i p,
  Forall (fun c => forall q, q ∈ descendants c <-> q <> [] /\ is_Some (nodeAt c q)) cs ->
  p ∈ forest i cs <->
  exists j q c, p = (i + j)%nat :: q /\ cs !! j = Some c /\ is_Some (nodeAt c q).
Proof.
  induction cs as [|c cs IHcs]; intros i p Hall; simpl.
  - split; [intros Hin; inversion Hin|intros (j & q & c' & _ & Hl & _); discriminate].
  - apply Forall_cons in Hall as [Hc Hall].
    rewrite elem_of_cons, elem_of_app, list_elem_of_fmap, (IHcs (S i) p Hall).
    split.
    + intros [->|[(q & -> & Hq)|(j & q & c' & -> & Hl & Hs)]].
      * exists 0%nat, [], c. rewrite Nat.add_0_r. simpl. eauto.
      * apply Hc in Hq as [_ Hq]. exists 0%nat, q, c. rewrite Nat.add_0_r. eauto.
      * exists (S j), q, c'. split; [f_equal; lia|]. eauto.
    + intros (j & q & c' & -> & Hl & Hs). destruct j as [|j]; simpl in Hl.
      * injection Hl as <-. rewrite Nat.add_0_r. destruct q as [|k q]; [now left|].
        right; left. exists (k :: q). split; [reflexivity|]. apply Hc. split; [discriminate|exact Hs].
      * right; right. exists j, q, c'. split; [f_equal; lia|]. eauto.
Qed.

Lemma elem_of_descendants e p :
  p ∈ descendants e <-> p <> [] /\ is_Some (nodeAt e p).
Proof.
  revert p. induction e as [t cl c h s cs IH] using Element_tree_ind. intros p.
  rewrite descendants_forest. simpl childNodes. rewrite (elem_of_forest cs 0 p IH).
  split.
  - intros (j & q & c' & -> & Hl & Hs). split; [discriminate|]. simpl. now rewrite Hl.
  - intros [Hne Hs]. destruct p as [|j q]; [congruence|]. simpl in Hs.
    destruct (cs !! j) as [c'|] eqn:Hl; [|destruct Hs; discriminate].
    exists j, q, c'. eauto.
Qed.

(** The traversal lists positions in document order. *)
Lemma forest_head_ge i cs p : p ∈ forest i cs -> exists j q, p = j :: q /\ (i <= j)%nat.
Proof.
  revert i. induction cs as [|c cs IH]; intros i; simpl; [intros Hin; inversion Hin|].
  rewrite elem_of_cons, elem_of_app, list_elem_of_fmap.
  intros [->|[(q & -> & _)|Hin]]; [exists i, []; auto|exists i, q; auto|].
  destruct (IH _ Hin) as (j & q & -> & Hle). exists j, q. split; [reflexivity|lia].
Qed.

Lemma sorted_forest cs : forall i,
  Forall (fun c => StronglySorted before (descendants c)) cs ->
  StronglySorted before (forest i cs).
Proof.
  induction cs as [|c cs IH]; intros i Hall; simpl; [constructor|].
  apply Forall_cons in Hall as [Hc Hall].
  apply (StronglySorted_app_2 _ (_ :: _)).
  - intros x y Hx Hy. destruct (forest_head_ge _ _ _ Hy) as (j & q & -> & Hle).
    apply elem_of_cons in Hx as [->|Hx]; [simpl; left; lia|].
    apply list_elem_of_fmap in Hx as (q' & -> & _). simpl. left. lia.
  - constructor.
    + apply (StronglySorted_fmap _ before); [|exact Hc].
      intros x y Hxy. simpl. right. now split.
    + apply Forall_forall. intros y Hy.
      apply list_elem_of_fmap in Hy as (q & -> & Hq). simpl. right. split; [reflexivity|].
      destruct q; [|exact I]. rewrite descendants_forest in Hq.
      destruct (forest_head_ge _ _ _ Hq) as (? & ? & ? & _). discriminate.
  - now apply IH.
Qed.

Lemma sorted_descendants e : StronglySorted before (descendants e).
Proof.
  induction e as [t cl c h s cs IH] using Element_tree_ind.
  rewrite descendants_forest. now apply sorted_forest.
Qed.

Lemma sorted_filter {A} (R : relation A) (f : A -> bool) l :
  StronglySorted R l -> StronglySorted R (List.filter f l).
Proof.
  induction 1 as [|a l Hl IH Ha]; simpl; [constructor|].
  destruct (f a); [|exact IH]. constructor; [exact IH|].
  apply Forall_forall. intros y Hy. apply list_elem_of_In, filter_In in Hy as [Hy _].
  rewrite Forall_forall in Ha. apply Ha. now apply list_elem_of_In.
Qed.

Lemma nodeAt_app doc s p :
  nodeAt doc (s ++ p) = match nodeAt doc s with Some e => nodeAt e p | None => None end.
Proof.
  revert doc. induction s as [|i s IH]; intros doc; simpl; [reflexivity|].
  destruct (childNodes doc !! i); [apply IH|reflexivity].
Qed.

Lemma matchesAt_Some doc sel p :
  matchesAt doc sel p = true <-> exists e, nodeAt doc p = Some e /\ matches e sel = true.
Proof.
  unfold matchesAt. destruct (nodeAt doc p) as [e|].
  - split; [eauto|]. now intros (e' & [= <-] & He).
  - split; [discriminate|]. now intros (e' & [=] & _).
Qed.

(** [querySelectorAll] returns exactly the matching strict descendants. *)
Lemma elem_of_querySelectorAll doc scope sel h :
  h ∈ querySelectorAll doc scope sel <->
  exists p, p <> [] /\ h = scope ++ p /\ matchesAt doc sel h = true.
Proof.
  unfold querySelectorAll. destruct (nodeAt doc scope) as [e|] eqn:He.
  - rewrite list_elem_of_In, filter_In, <- list_elem_of_In, list_elem_of_fmap.
    split.
    + intros [(p & -> & Hp) Hm]. apply elem_of_descendants in Hp as [Hne _]. eauto.
    + intros (p & Hne & -> & Hm). split; [|exact Hm]. exists p. split; [reflexivity|].
      apply elem_of_descendants. split; [exact Hne|].
      apply matchesAt_Some in Hm as (e' & He' & _). rewrite nodeAt_app, He in He'. eauto.
  - split; [intros Hin; inversion Hin|]. intros (p & _ & -> & Hm).
    apply matchesAt_Some in Hm as (e' & He' & _). rewrite nodeAt_app, He in He'. discriminate.
Qed.

(** ... in document order. *)
Lemma sorted_querySelectorAll doc scope sel :
  StronglySorted before (querySelectorAll doc scope sel).
Proof.
  unfold querySelectorAll. destruct (nodeAt doc scope) as [e|]; [|constructor].
  apply sorted_filter. apply (StronglySorted_fmap _ before); [|apply sorted_descendants].
  intros x y Hxy. now apply before_app.
Qed.

Lemma find_first {A} (f : A -> bool) l x :
  List.find f l = Some x ->
  exists l1 l2, l = l1 ++ x :: l2 /\ f x = true /\ Forall (fun y => f y = false) l1.
Proof.
  induction l as [|a l IH]; simpl; [discriminate|].
  destruct (f a) eqn:Ha.
  - intros [= <-]. exists [], l. auto.
  - intros Hx. destruct (IH Hx) as (l1 & l2 & -> & Hfx & Hl1).
    exists (a :: l1), l2. auto.
Qed.

(** The first element of a sorted list that passes a test comes before
    every other element that passes it. *)
Lemma find_sorted_first {A} (R : relation A) (f : A -> bool) l x y :
  StronglySorted R l -> List.find f l = Some x -> y ∈ l -> f y = true -> y = x \/ R x y.
Proof.
  intros Hs Hx Hy Hfy. destruct (find_first _ _ _ Hx) as (l1 & l2 & -> & Hfx & Hl1).
  apply elem_of_app in Hy as [Hy|Hy].
  - rewrite Forall_forall in Hl1. apply Hl1 in Hy. congruence.
  - apply elem_of_cons in Hy as [->|Hy]; [now left|right].
    apply StronglySorted_app_1_r, StronglySorted_inv in Hs as [_ Hall].
    rewrite Forall_forall in Hall. now apply Hall.
Qed.

(** [closest] returns the longest prefix of the position that matches. *)
Lemma find_inclusiveAncestors p : forall (f : Loc -> bool),
  match List.find f (inclusiveAncestors p) with
  | Some q => q `prefix_of` p /\ f q = true /\
              forall q', q' `prefix_of` p -> (length q < length q')%nat -> f q' = false
  | None => forall q', q' `prefix_of` p -> f q' = false
  end.
Proof.
  induction p as [|i p IH]; intros f; simpl.
  - destruct (f []) eqn:Hf.
    + split; [reflexivity|]. split; [exact Hf|]. intros q' Hq' Hlen.
      apply prefix_nil_inv in Hq' as ->. simpl in Hlen. lia.
    + intros q' Hq'. now apply prefix_nil_inv in Hq' as ->.
  - assert (Hfind : forall l, List.find f (map (cons i) l ++ [[]]) =
        match List.find (fun q => f (i :: q)) l with
        | Some q => Some (i :: q)
        | None => if f [] then Some [] else None
        end).
    { induction l as [|a l IHl]; simpl; [reflexivity|].
      destruct (f (i :: a)); [reflexivity|exact IHl]. }
    rewrite Hfind. specialize (IH (fun q => f (i :: q))).
    destruct (List.find (fun q => f (i :: q)) (inclusiveAncestors p)) as [q|].
    + destruct IH as (Hpre & Hfq & Hlong). split; [now apply prefix_cons|]. split; [exact Hfq|].
      intros q' Hq' Hlen. destruct q' as [|j q']; [simpl in Hlen; lia|].
      destruct Hq' as [r Hr]. injection Hr as <- Hr. apply Hlong; [now exists r|simpl in Hlen; lia].
    + assert (Hne : forall q', q' `prefix_of` (i :: p) -> q' <> [] -> f q' = false).
      { intros [|j q'] Hq' Hne; [congruence|]. destruct Hq' as [r Hr].
        injection Hr as <- Hr. apply IH. now exists r. }
      destruct (f []) eqn:Hf.
      * split; [apply prefix_nil|]. split; [exact Hf|]. intros q' Hq' Hlen.
        apply Hne; [exact Hq'|]. intros ->. simpl in Hlen. lia.
      * intros q' Hq'. destruct q' as [|j q']; [exact Hf|]. now apply Hne.
Qed.

Lemma closest_Some doc el sel q :
  closest doc el sel = Some q ->
  q `prefix_of` el /\ matchesAt doc sel q = true /\
  forall q', q' `prefix_of` el -> (length q < length q')%nat -> matchesAt doc sel q' = false.
Proof.
  unfold closest. intros Hq. pose proof (find_inclusiveAncestors el (matchesAt doc sel)) as H.
  now rewrite Hq in H.
Qed.

Lemma closest_None doc el sel :
  closest doc el sel = None ->
  forall q', q' `prefix_of` el -> matchesAt doc sel q' = false.
Proof.
  unfold closest. intros Hq. pose proof (find_inclusiveAncestors el (matchesAt doc sel)) as H.
  now rewrite Hq in H.
Qed.

End DomFacts.

(** * The remaining height *)

Lemma remainingHeightLoop_sum doc tbs fuel : forall (k : nat) acc w,
  (length tbs <= k + fuel)%nat ->
  remainingHeightLoop doc tbs fuel (Z.of_nat k) acc w =
  Return (acc + foldr Z.add 0 (map (heightAtIndex doc tbs) (seq k (length tbs - k)))) w.
Proof.
  induction fuel as [|fuel IH]; intros k acc w Hlen; simpl.
  - replace (length tbs - k)%nat with 0%nat by lia. simpl. unfold ret. f_equal. lia.
  - destruct (Z.leb_spec (Z.of_nat k) (Z.of_nat (length tbs) - 1)) as [Hle|Hgt].
    + rewrite Nat2Z.id. destruct (tbs !! k) as [t|] eqn:Ht.
      * replace (Z.of_nat k + 1) with (Z.of_nat (S k)) by lia.
        rewrite IH by lia.
        replace (length tbs - k)%nat with (S (length tbs - S k)) by lia.
        simpl. unfold heightAtIndex at 2. rewrite Ht. f_equal. lia.
      * apply lookup_ge_None in Ht. lia.
    + replace (length tbs - k)%nat with 0%nat by lia. simpl. unfold ret. f_equal. lia.
Qed.

Lemma remainingHeightOf_sum doc idx w :
  remainingHeightOf doc idx w = Return (heightsBelowFirst doc (toolbars idx)) w.
Proof.
  unfold remainingHeightOf. rewrite (remainingHeightLoop_sum doc _ _ 1%nat) by lia.
  reflexivity.
Qed.

(** The sum over the indices is the sum over the list without its head. *)
Lemma heights_seq_drop doc tbs : forall k,
  foldr Z.add 0 (map (heightAtIndex doc tbs) (seq k (length tbs - k))) =
  foldr Z.add 0 (map (fun t => clientHeightAt doc (toolbarEl t)) (drop k tbs)).
Proof.
  intros k. remember (length tbs - k)%nat as n eqn:Hn. revert k Hn.
  induction n as [|n IH]; intros k Hn.
  - rewrite drop_ge by lia. reflexivity.
  - destruct (tbs !! k) as [t|] eqn:Ht; [|apply lookup_ge_None in Ht; lia].
    rewrite (drop_S _ _ _ Ht). simpl. unfold heightAtIndex at 1. rewrite Ht.
    f_equal. apply IH. lia.
Qed.

(** * The controller *)

Section Machine.
Context `{Constants}.

Lemma cloneElement_missing tag w :
  tag ∉ clonedElements w ->
  cloneElement tag w = Return tt (set_clonedElements (clonedElements w ++ [tag]) w).
Proof. intros Hn. unfold cloneElement, modify. now rewrite bool_decide_false. Qed.

Lemma cloneElement_present tag w :
  tag ∈ clonedElements w -> cloneElement tag w = Return tt w.
Proof. intros Hn. unfold cloneElement, modify. now rewrite bool_decide_true. Qed.

Lemma cloneWrite_first w :
  clonedElements w = [] ->
  cloneWrite w = Return tt (set_clonedElements ["ion-title"; "ion-back-button"] w).
Proof.
  intros Hc. unfold cloneWrite, bind.
  rewrite cloneElement_missing by (rewrite Hc; intros Hin; inversion Hin).
  rewrite cloneElement_missing.
  - cbn [clonedElements set_clonedElements]. rewrite Hc. reflexivity.
  - cbn [clonedElements set_clonedElements]. rewrite Hc. cbn [app].
    intros Hin. apply list_elem_of_singleton in Hin. discriminate.
Qed.

Lemma createHeaderIndex_Some doc h idx :
  createHeaderIndex doc h = Some idx ->
  headerEl idx = h /\ exists first rest, toolbars idx = first :: rest.
Proof.
  unfold createHeaderIndex. destruct (querySelectorAll doc h [Tag "ion-toolbar"]); [discriminate|].
  intros [= <-]. simpl. eauto.
Qed.

Lemma mainHeaderOf_notCondense doc p mh :
  mainHeaderOf doc p = Some mh -> collapseAt doc mh <> Some "condense".
Proof.
  unfold mainHeaderOf. intros Hf. apply find_some in Hf as [_ Hn].
  unfold notCondense in Hn. apply negb_true_iff, bool_decide_eq_false in Hn. exact Hn.
Qed.

Lemma canCollapse_true w :
  canCollapse w = true <-> thisCollapse w = Some "condense" /\ mode w = ios.
Proof.
  unfold canCollapse, hasCollapse. case_bool_decide as Hc; simpl.
  - destruct (mode w); simpl; split; auto; try discriminate. intros [_ ?]; discriminate.
  - split; [discriminate|]. intros [? _]. contradiction.
Qed.

Lemma canCollapse_main_ne w p mh :
  canCollapse w = true -> mainHeaderOf (document w) p = Some mh -> mh <> el w.
Proof.
  intros Hcan Hmh ->. apply canCollapse_true in Hcan as [Hc _].
  now apply mainHeaderOf_notCondense in Hmh.
Qed.

Lemma exclusive_weaken b main scroll inact :
  exclusive true main scroll inact -> exclusive b main scroll inact.
Proof. destruct b; simpl; [auto|]. intros [? ?]. tauto. Qed.

Lemma exclusive_false b main scroll inact :
  exclusive b main scroll inact -> exclusive false main scroll inact.
Proof. destruct b; [apply exclusive_weaken|auto]. Qed.

Lemma Shape_false b w : Shape b w -> Shape false w.
Proof. destruct 1; econstructor; eauto using exclusive_false. Qed.

Lemma exclusive_after_setup main scroll :
  main <> scroll -> exclusive true main scroll {[ main ]}.
Proof.
  intros Hne. split; [now apply elem_of_singleton|].
  rewrite elem_of_singleton. congruence.
Qed.

Lemma exclusive_toggle (main scroll : Loc) (inact : gset Loc) :
  main <> scroll ->
  exclusive false main scroll ((inact ∪ {[ main ]}) ∖ {[ scroll ]}) /\
  exclusive false main scroll ((inact ∖ {[ main ]}) ∪ {[ scroll ]}).
Proof.
  intros Hne. unfold exclusive.
  repeat (rewrite elem_of_difference || rewrite elem_of_union || rewrite elem_of_singleton).
  split; split; intros; intuition congruence.
Qed.

Local Opaque mainHeaderOf createHeaderIndex remainingHeightOf pageElOf contentElOf
  canCollapse scrollElementOf heightsBelowFirst.

Ltac idle_done := split; [reflexivity|]; constructor; assumption.
Ltac clone_first := rewrite cloneWrite_first by reflexivity; js.

(** An update cycle of a controller that was never set up. *)
Lemma update_idle doc m st at_ cons :
  let w := Build_World doc m st at_ false None None None 0 [] ∅ cons [] [] ∅ ∅ None [] in
  returns ((checkCollapsibleHeader ;; frame)%js w) = true /\
  UpdateOutcome w (exec (checkCollapsibleHeader ;; frame)%js w).
Proof.
  intros w. subst w. js.
  destruct (canCollapse _) eqn:Hcan; js; [|idle_done].
  destruct (pageElOf _) as [p|] eqn:Hp; js.
  2:{ split; [reflexivity|]. apply (update_no_content _ Hcan). now rewrite Hp. }
  destruct (contentElOf _ _) as [c|] eqn:Hc; js.
  2:{ split; [reflexivity|]. apply (update_no_content _ Hcan). now rewrite Hp. }
  destruct (mainHeaderOf doc p) as [mh|] eqn:Hmh; js.
  2:{ clone_first. split; [reflexivity|].
      apply (update_unindexed _ p c Hcan Hp Hc). now left. }
  destruct (scrollElementOf doc c) as [s|] eqn:Hs; js.
  2:{ clone_first. split; [reflexivity|].
      pose proof (update_unindexed _ p c Hcan Hp Hc) as Hu. cbn [document] in Hu.
      rewrite Hs in Hu. apply Hu. right. now left. }
  destruct (createHeaderIndex doc mh) as [main|] eqn:Hmain; js.
  2:{ clone_first. split; [reflexivity|].
      pose proof (update_unindexed _ p c Hcan Hp Hc) as Hu. cbn [document] in Hu.
      rewrite Hs in Hu. apply Hu. right. right. exists mh. auto. }
  destruct (createHeaderIndex doc at_) as [scroll|] eqn:Hscroll; js.
  2:{ clone_first. split; [reflexivity|].
      pose proof (update_unindexed _ p c Hcan Hp Hc) as Hu. cbn [document] in Hu.
      rewrite Hs in Hu. apply Hu. right. right. exists mh. auto. }
  rewrite remainingHeightOf_sum. js.
  destruct (createHeaderIndex_Some _ _ _ Hscroll) as [_ (first & rest & Htb)].
  assert (Hlk : toolbars scroll !! 0%nat = Some first) by now rewrite Htb.
  rewrite Hlk. js.
  rewrite insert_empty, alter_singleton_eq.
  unfold addTarget. cbn [targets callback threshold rootMargin].
  rewrite bool_decide_false by (intros Hin; inversion Hin). cbn [app].
  clone_first. split; [reflexivity|]. rewrite (left_id_L ∅ (∪)).
  exact (update_wired _ p c s mh main scroll first rest Hcan Hp Hc Hs Hmh Hmain Hscroll Htb).
Qed.

Lemma UpdateOutcome_Shape b doc m st at_ cons w' :
  UpdateOutcome
    (Build_World doc m st at_ false None None None 0 [] ∅ cons [] [] ∅ ∅ None []) w' ->
  Shape b w'.
Proof.
  destruct 1 as [Hcan|Hcan Hc|p c Hcan Hp Hc Hbail
                |p c s mh main scroll first rest Hcan Hp Hc Hs Hmh Hmain Hscroll Htb].
  - constructor.
  - constructor.
  - constructor.
  - unfold wired. cbn [document mode scrollTop el console].
    destruct (createHeaderIndex_Some _ _ _ Hmain) as [Hm _].
    destruct (createHeaderIndex_Some _ _ _ Hscroll) as [Hsc _].
    pose proof (canCollapse_main_ne _ p mh Hcan Hmh) as Hne. cbn [el document] in *.
    eapply shape_live; [exact Htb|congruence|].
    apply exclusive_weaken, exclusive_after_setup. congruence.
Qed.

Lemma liveObservers_empty w : observers w = ∅ -> liveObservers w = [].
Proof. unfold liveObservers. intros ->. now rewrite map_to_list_empty. Qed.

Lemma liveObservers_singleton w o ob :
  observers w = {[ o := ob ]} ->
  liveObservers w = if live ob then [(o, ob)] else [].
Proof. unfold liveObservers. intros ->. now rewrite map_to_list_singleton. Qed.

Lemma destroy_facts b w :
  Shape b w ->
  returns (destroyCollapsibleHeader w) = true /\
  Shape b (exec destroyCollapsibleHeader w) /\
  Stable w (exec destroyCollapsibleHeader w) /\
  Quiet (exec destroyCollapsibleHeader w).
Proof.
  intros Hw. shapes Hw; js.
  - repeat split; constructor.
  - destruct s; js; repeat split; constructor.
  - rewrite alter_singleton_eq. unfold sameListener. cbn [fst snd ref].
    rewrite bool_decide_true by reflexivity. cbn [Nat.eqb andb negb].
    repeat split; now constructor.
  - repeat split; now constructor.
Qed.

Lemma frame_Shape b w : Shape b w -> frame w = Return tt w.
Proof. destruct 1; reflexivity. Qed.

Lemma check_initialized w :
  collapsibleHeaderInitialized w = true ->
  checkCollapsibleHeader w = if canCollapse w then Return tt w else destroyCollapsibleHeader w.
Proof.
  intros Hinit. unfold checkCollapsibleHeader, checkUntilAwait, bind, gets. rewrite Hinit.
  destruct (canCollapse w); cbn [negb andb]; [reflexivity|].
  now destruct (destroyCollapsibleHeader w) as [[] w'|].
Qed.

Lemma destroy_then_frame b w :
  Shape b w ->
  (destroyCollapsibleHeader ;; frame)%js w = Return tt (exec destroyCollapsibleHeader w).
Proof.
  intros Hw. destruct (destroy_facts b w Hw) as (Hr & Hs & _). unfold bind, exec in *.
  destruct (destroyCollapsibleHeader w) as [[] w'|]; [|discriminate].
  cbn [finalWorld] in *. now rewrite (frame_Shape b w' Hs).
Qed.

(** An update cycle of an initialized controller: nothing, or teardown. *)
Lemma update_initialized b w :
  Shape b w -> collapsibleHeaderInitialized w = true ->
  (checkCollapsibleHeader ;; frame)%js w =
  Return tt (if canCollapse w then w else exec destroyCollapsibleHeader w).
Proof.
  intros Hw Hinit. pose proof (destroy_then_frame b w Hw) as Hd.
  unfold bind in *. rewrite (check_initialized w Hinit). destruct (canCollapse w).
  - now rewrite (frame_Shape b w Hw).
  - exact Hd.
Qed.

Lemma lifecycle_Shape b w :
  Shape b w ->
  returns ((checkCollapsibleHeader ;; frame)%js w) = true /\
  Shape b (exec (checkCollapsibleHeader ;; frame)%js w).
Proof.
  intros Hw. destruct (collapsibleHeaderInitialized w) eqn:Hinit.
  - unfold exec. rewrite (update_initialized b w Hw Hinit). split; [reflexivity|].
    cbn [finalWorld]. destruct (canCollapse w); [exact Hw|]. now apply (destroy_facts b).
  - destruct Hw; try discriminate.
    destruct (update_idle doc m st at_ cons) as [Hr Ho]. split; [exact Hr|].
    now apply (UpdateOutcome_Shape b) in Ho.
Qed.

Lemma scroll_facts b target top w :
  Shape b w ->
  returns (step (Scroll target top) w) = true /\
  Shape b (exec (step (Scroll target top)) w) /\
  Stable w (exec (step (Scroll target top)) w).
Proof.
  intros Hw. shapes Hw; js; try (repeat split; now constructor).
  case_bool_decide; js; [|repeat split; econstructor; eauto].
  destruct (last (toolbars main)); js; repeat split; econstructor; eauto.
Qed.

Lemma intersection_facts b o entry w :
  Shape b w ->
  returns (step (Intersection o entry) w) = true /\
  Shape false (exec (step (Intersection o entry)) w) /\
  Stable w (exec (step (Intersection o entry)) w).
Proof.
  intros Hw. shapes Hw; js; rewrite ?lookup_empty, ?lookup_singleton;
    try (repeat split; now constructor).
  - case_decide; [|repeat split; econstructor; eauto using exclusive_false].
    unfold observerOf. js.
    destruct (exclusive_toggle _ _ inact Hne) as [Hoff Hon].
    destruct (Qle_bool cutoff (intersectionRatio entry)); js; repeat split;
      fold (observerOf main scroll margin [toolbarEl first]);
      (eapply shape_live; [exact Htb|exact Hne|assumption]).
  - case_decide; repeat split; econstructor; eauto using exclusive_false.
Qed.

Lemma render_facts b doc' m' w :
  Shape b w ->
  returns (step (Render doc' m') w) = true /\
  Shape b (exec (step (Render doc' m')) w) /\
  Stable w (exec (step (Render doc' m')) w).
Proof. intros Hw. destruct Hw; js; repeat split; econstructor; eauto. Qed.

(** Every event leaves the controller in one of its shapes, and none
    throws. *)
Lemma step_Shape b e w :
  Shape b w ->
  returns (step e w) = true /\ Shape (b && negb (isIntersection e)) (exec (step e) w).
Proof.
  intros Hw. destruct e as [| | |doc' m'|target top|o entry]; cbn [isIntersection negb];
    rewrite ?andb_true_r, ?andb_false_r.
  - now apply lifecycle_Shape.
  - now apply lifecycle_Shape.
  - unfold step, componentDidUnload, exec. rewrite (destroy_then_frame b w Hw).
    split; [reflexivity|]. now apply (destroy_facts b).
  - destruct (render_facts b doc' m' w Hw) as (? & ? & _). now split.
  - destruct (scroll_facts b target top w Hw) as (? & ? & _). now split.
  - destruct (intersection_facts b o entry w Hw) as (? & ? & _). now split.
Qed.

(** Only an update cycle touches the initialized flag and the console,
    and only while the controller is not initialized. *)
Lemma step_Stable b e w :
  Shape b w ->
  isUpdate e = false \/ collapsibleHeaderInitialized w = true ->
  Stable w (exec (step e) w).
Proof.
  intros Hw Hcase.
  assert (Hupd : collapsibleHeaderInitialized w = true ->
                 Stable w (exec (checkCollapsibleHeader ;; frame)%js w)).
  { intros Hinit. unfold exec. rewrite (update_initialized b w Hw Hinit). cbn [finalWorld].
    destruct (canCollapse w); [now split|]. now apply (destroy_facts b). }
  destruct e as [| | |doc' m'|target top|o entry].
  - destruct Hcase as [|Hinit]; [discriminate|]. now apply Hupd.
  - destruct Hcase as [|Hinit]; [discriminate|]. now apply Hupd.
  - unfold step, componentDidUnload, exec. rewrite (destroy_then_frame b w Hw).
    now apply (destroy_facts b).
  - now apply (render_facts b).
  - now apply (scroll_facts b).
  - now apply (intersection_facts b).
Qed.

Lemma run_snoc es e w : run (es ++ [e]) w = exec (step e) (run es w).
Proof. unfold run. now rewrite fold_left_app. Qed.


Lemma run_Shape es : forall b w,
  Shape b w -> Shape (b && forallb (fun e => negb (isIntersection e)) es) (run es w).
Proof.
  induction es as [|e es IH]; intros b w Hw; cbn [run fold_left forallb].
  - now rewrite andb_true_r.
  - rewrite andb_assoc. apply IH. now apply step_Shape.
Qed.

Lemma fresh_Shape b doc m at_ : Shape b (fresh doc m at_).
Proof. constructor. Qed.

Lemma reachable_Shape doc m at_ es : Shape false (run es (fresh doc m at_)).
Proof. apply (run_Shape es false). apply fresh_Shape. Qed.

Lemma reachable_pristine doc m at_ es :
  forallb (fun e => negb (isIntersection e)) es = true ->
  Shape true (run es (fresh doc m at_)).
Proof.
  intros Hes. pose proof (run_Shape es true _ (fresh_Shape true doc m at_)) as Hs.
  now rewrite Hes in Hs.
Qed.

Lemma Shape_idle_inv b w :
  Shape b w -> collapsibleHeaderInitialized w = false ->
  w = Build_World (document w) (mode w) (scrollTop w) (el w) false None None None 0 [] ∅
        (console w) [] [] ∅ ∅ None [].
Proof. destruct 1; [reflexivity|discriminate..]. Qed.

(** The update cycle of a reachable controller that is not initialized. *)
Lemma update_not_initialized b w :
  Shape b w -> collapsibleHeaderInitialized w = false ->
  returns (step DidUpdate w) = true /\ UpdateOutcome w (exec (step DidUpdate) w).
Proof.
  intros Hw Hinit. rewrite (Shape_idle_inv b w Hw Hinit). apply update_idle.
Qed.
End Machine.

(** * The title scale *)

Section Scale.
Context `{Constants}.

Lemma clamp_bounds lo n hi : (lo <= hi)%Q -> (lo <= clamp lo n hi)%Q /\ (clamp lo n hi <= hi)%Q.
Proof.
  intros Hlh. unfold clamp. split; [apply Q.le_max_l|].
  apply Q.max_lub; [exact Hlh|apply Q.le_min_r].
Qed.

Lemma clamp_mono lo hi n n' : (n <= n')%Q -> (clamp lo n hi <= clamp lo n' hi)%Q.
Proof.
  intros Hn. unfold clamp. apply Q.max_le_compat_l. now apply Q.min_le_compat_r.
Qed.

Lemma interpolation_antitone (rh : Z) (s1 s2 : Q) :
  (minScale <= 1)%Q -> (0 <= rh)%Z -> (s1 <= s2)%Q ->
  (1 - (1 - minScale) * (s2 / inject_Z rh) <= 1 - (1 - minScale) * (s1 / inject_Z rh))%Q.
Proof.
  intros Hm Hrh Hs.
  assert (Hinv : (0 <= / inject_Z rh)%Q).
  { apply Qinv_le_0_compat. change 0%Q with (inject_Z 0). now rewrite <- Zle_Qle. }
  assert (Hdiv : (s1 / inject_Z rh <= s2 / inject_Z rh)%Q).
  { unfold Qdiv. now apply Qmult_le_compat_r. }
  assert (Hk : (0 <= 1 - minScale)%Q) by lra.
  assert (Hprod : ((1 - minScale) * (s1 / inject_Z rh) <= (1 - minScale) * (s2 / inject_Z rh))%Q).
  { rewrite !(Qmult_comm (1 - minScale)). now apply Qmult_le_compat_r. }
  lra.
Qed.

(** C8 (modelled from the spec: header.utils is not among the sources).
    For scroll offsets [0 <= s1 <= s2] within the remaining height, the
    scale factor at [s2] is at most the factor at [s1], and at every
    offset the factor lies between [minScale] and 1. *)
Theorem scale_factor_monotone_and_bounded (remainingHeight : Z) (s1 s2 : Q) :
  (minScale <= 1)%Q ->
  (0 <= s1)%Q -> (s1 <= s2)%Q -> (s2 <= inject_Z remainingHeight)%Q ->
  (scaleFactor remainingHeight s2 <= scaleFactor remainingHeight s1)%Q /\
  forall s, (minScale <= scaleFactor remainingHeight s)%Q /\
            (scaleFactor remainingHeight s <= 1)%Q.
Proof.
  intros Hm H0 H12 H2. split.
  - unfold scaleFactor. apply clamp_mono. apply interpolation_antitone; [exact Hm| |exact H12].
    rewrite Zle_Qle. change (inject_Z 0) with 0%Q. lra.
  - intros s. unfold scaleFactor. now apply clamp_bounds.
Qed.

End Scale.

(** * The element mirror *)

Lemma cloneElement_cases tag w :
  exists l, cloneElement tag w = Return tt l /\
    tag ∈ clonedElements l /\
    (tag ∈ clonedElements w -> l = w) /\
    forall t, count_occ string_dec (clonedElements l) t =
      if bool_decide (t = tag /\ tag ∉ clonedElements w)
      then S (count_occ string_dec (clonedElements w) t)
      else count_occ string_dec (clonedElements w) t.
Proof.
  unfold cloneElement, modify. case_bool_decide as Hin.
  - exists w. repeat split; auto. intros t. rewrite bool_decide_false; [reflexivity|tauto].
  - eexists. split; [reflexivity|]. cbn [clonedElements set_clonedElements].
    split; [apply elem_of_app; right; now apply list_elem_of_singleton|].
    split; [contradiction|]. intros t. rewrite count_occ_app. cbn [count_occ].
    case_bool_decide as Ht.
    + destruct Ht as [-> _]. destruct (string_dec tag tag); [lia|contradiction].
    + destruct (string_dec tag t) as [->|]; [tauto|lia].
Qed.

Lemma count_occ_pos_elem_of (l : list string) t :
  t ∈ l <-> (0 < count_occ string_dec l t)%nat.
Proof. rewrite list_elem_of_In. apply count_occ_In. Qed.

(** C7 (modelled from the spec: header.utils is not among the sources).
    Running the element mirror twice gives the same world as running it
    once, and it leaves exactly one mirror of the title and of the back
    button unless there were several to begin with. *)
Theorem element_mirror_idempotent (w : World) :
  let w1 := exec cloneWrite w in
  let w2 := exec cloneWrite w1 in
  returns (cloneWrite w) = true /\ returns (cloneWrite w1) = true /\
  w2 = w1 /\
  forall tag, tag = "ion-title" \/ tag = "ion-back-button" ->
    count_occ string_dec (clonedElements w2) tag =
    Nat.max 1 (count_occ string_dec (clonedElements w) tag).
Proof.
  assert (Hrun : forall v, exists v1 v2,
    cloneElement "ion-title" v = Return tt v1 /\
    cloneElement "ion-back-button" v1 = Return tt v2 /\
    cloneWrite v = Return tt v2).
  { intros v. destruct (cloneElement_cases "ion-title" v) as (v1 & H1 & _).
    destruct (cloneElement_cases "ion-back-button" v1) as (v2 & H2 & _).
    exists v1, v2. repeat split; auto. unfold cloneWrite, bind. now rewrite H1. }
  destruct (Hrun w) as (wa & wb & Ha & Hb & Hab).
  destruct (cloneElement_cases "ion-title" w) as (wa' & Ha' & Hta & _ & Hca).
  rewrite Ha in Ha'. injection Ha' as <-.
  destruct (cloneElement_cases "ion-back-button" wa) as (wb' & Hb' & Hbb & _ & Hcb).
  rewrite Hb in Hb'. injection Hb' as <-.
  assert (Htb : "ion-title" ∈ clonedElements wb).
  { apply count_occ_pos_elem_of. rewrite Hcb. apply count_occ_pos_elem_of in Hta.
    case_bool_decide; lia. }
  assert (Hagain : cloneWrite wb = Return tt wb).
  { unfold cloneWrite, bind.
    destruct (cloneElement_cases "ion-title" wb) as (x & Hx & _ & Hxid & _).
    rewrite Hx, (Hxid Htb).
    destruct (cloneElement_cases "ion-back-button" wb) as (y & Hy & _ & Hyid & _).
    now rewrite Hy, (Hyid Hbb). }
  cbv zeta. unfold exec. rewrite Hab. cbn [finalWorld returns]. rewrite Hagain.
  cbn [finalWorld returns]. repeat split.
  intros tag Htag. rewrite Hcb, Hca.
  destruct Htag as [-> | ->].
  - rewrite (bool_decide_false (_ = "ion-back-button" /\ _)) by (intros [? _]; discriminate).
    case_bool_decide as Hc.
    + destruct Hc as [_ Hn].
      assert (Hz : count_occ string_dec (clonedElements w) "ion-title" = 0%nat).
      { apply count_occ_not_In. now rewrite <- list_elem_of_In. }
      lia.
    + assert (Hin : "ion-title" ∈ clonedElements w).
      { destruct (decide ("ion-title" ∈ clonedElements w)); [assumption|]. tauto. }
      apply count_occ_pos_elem_of in Hin. lia.
  - rewrite (bool_decide_false (_ = "ion-title" /\ _)) by (intros [? _]; discriminate).
    case_bool_decide as Hc.
    + destruct Hc as [_ Hn].
      assert (Hz : count_occ string_dec (clonedElements wa) "ion-back-button" = 0%nat).
      { apply count_occ_not_In. now rewrite <- list_elem_of_In. }
      rewrite Hca in Hz.
      rewrite (bool_decide_false (_ = "ion-title" /\ _)) in Hz by (intros [? _]; discriminate).
      lia.
    + assert (Hin : "ion-back-button" ∈ clonedElements wa).
      { destruct (decide ("ion-back-button" ∈ clonedElements wa)); [assumption|]. tauto. }
      apply count_occ_pos_elem_of in Hin. rewrite Hca in Hin.
      rewrite (bool_decide_false (_ = "ion-title" /\ _)) in Hin by (intros [? _]; discriminate).
      lia.
Qed.

(** * Locating the page and the primary header *)

Lemma matchesAt_tag doc tag h :
  matchesAt doc [Tag tag] h = true <-> exists e, nodeAt doc h = Some e /\ tagName e = tag.
Proof.
  rewrite matchesAt_Some. unfold matches, matchesSimple. cbn [existsb].
  setoid_rewrite orb_false_r. now setoid_rewrite String.eqb_eq.
Qed.

Lemma elem_of_headers doc scope tag h :
  h ∈ querySelectorAll doc scope [Tag tag] <-> inside doc scope tag h.
Proof.
  rewrite elem_of_querySelectorAll. unfold inside. split.
  - intros (p & Hne & -> & Hm). apply matchesAt_tag in Hm as (e & He & Ht). eauto 6.
  - intros (p & e & Hne & -> & He & Ht). exists p. repeat split; auto.
    apply matchesAt_tag. eauto.
Qed.

Lemma notCondense_true doc h :
  notCondense doc h = true <-> collapseAt doc h <> Some "condense".
Proof. unfold notCondense. now rewrite negb_true_iff, bool_decide_eq_false. Qed.

(** C9.  The page container is the closest [ion-tabs] when there is one,
    whatever page-like ancestors there are; otherwise it is the closest
    page-like ancestor ([ion-app], [ion-page], [.ion-page] or
    [page-inner]) when there is one, and there is no container when there
    is neither.  The primary header is the first [ion-header] inside the
    container, in document order, whose [collapse] is not ['condense'],
    and there is none exactly when every [ion-header] inside is
    condensing. *)
Theorem page_container_and_primary_header (w : World) :
  let pageLike := [Tag "ion-app"; Tag "ion-page"; Class "ion-page"; Tag "page-inner"] in
  match pageElOf w with
  | Some pageEl =>
      nearest (document w) (el w) [Tag "ion-tabs"] pageEl \/
      ((forall q, q `prefix_of` el w -> matchesAt (document w) [Tag "ion-tabs"] q = false) /\
       nearest (document w) (el w) pageLike pageEl)
  | None =>
      forall q, q `prefix_of` el w ->
        matchesAt (document w) [Tag "ion-tabs"] q = false /\
        matchesAt (document w) pageLike q = false
  end /\
  (forall tabs, tabsOf w = Some tabs ->
     pageElOf w = Some tabs /\ nearest (document w) (el w) [Tag "ion-tabs"] tabs) /\
  (tabsOf w = None ->
     pageElOf w = pageOf w /\
     forall q, q `prefix_of` el w -> matchesAt (document w) [Tag "ion-tabs"] q = false) /\
  (forall page, pageOf w = Some page -> nearest (document w) (el w) pageLike page) /\
  (pageOf w = None ->
     forall q, q `prefix_of` el w -> matchesAt (document w) pageLike q = false) /\
  forall pageEl,
    match mainHeaderOf (document w) pageEl with
    | Some mainHeader =>
        inside (document w) pageEl "ion-header" mainHeader /\
        collapseAt (document w) mainHeader <> Some "condense" /\
        forall h, inside (document w) pageEl "ion-header" h ->
                  collapseAt (document w) h <> Some "condense" ->
                  h = mainHeader \/ before mainHeader h
    | None =>
        forall h, inside (document w) pageEl "ion-header" h ->
                  collapseAt (document w) h = Some "condense"
    end.
Proof.
  cbv zeta.
  assert (Htabs : forall tabs, tabsOf w = Some tabs ->
            nearest (document w) (el w) [Tag "ion-tabs"] tabs)
    by (intros tabs Ht; now apply closest_Some).
  assert (Hnotabs : tabsOf w = None ->
            forall q, q `prefix_of` el w -> matchesAt (document w) [Tag "ion-tabs"] q = false)
    by (intros Ht; now apply closest_None).
  assert (Hpage : forall page, pageOf w = Some page ->
            nearest (document w) (el w)
              [Tag "ion-app"; Tag "ion-page"; Class "ion-page"; Tag "page-inner"] page)
    by (intros page Hp; now apply closest_Some).
  assert (Hnopage : pageOf w = None ->
            forall q, q `prefix_of` el w ->
              matchesAt (document w)
                [Tag "ion-app"; Tag "ion-page"; Class "ion-page"; Tag "page-inner"] q = false)
    by (intros Hp; now apply closest_None).
  split; [|split; [|split; [|split; [exact Hpage|split; [exact Hnopage|]]]]].
  - unfold pageElOf. destruct (tabsOf w) as [tabs|] eqn:Ht; [left; now apply Htabs|].
    destruct (pageOf w) as [page|] eqn:Hp.
    + right. split; [now apply Hnotabs|now apply Hpage].
    + intros q Hq. split; [now apply Hnotabs|now apply Hnopage].
  - intros tabs Ht. split; [unfold pageElOf; now rewrite Ht|now apply Htabs].
  - intros Ht. split; [|now apply Hnotabs].
    unfold pageElOf. rewrite Ht. now destruct (pageOf w).
  - intros pageEl. unfold mainHeaderOf.
    destruct (List.find _ _) as [mainHeader|] eqn:Hfind.
    + pose proof (find_some _ _ Hfind) as [Hin Hnc].
      apply list_elem_of_In, elem_of_headers in Hin. apply notCondense_true in Hnc.
      repeat split; auto. intros h Hh Hhc.
      apply (find_sorted_first before (notCondense (document w))
               (querySelectorAll (document w) pageEl [Tag "ion-header"])).
      * apply sorted_querySelectorAll.
      * exact Hfind.
      * now apply elem_of_headers.
      * now apply notCondense_true.
    + intros h Hh. apply elem_of_headers, list_elem_of_In in Hh.
      pose proof (find_none _ _ Hfind h Hh) as Hn.
      unfold notCondense in Hn. apply negb_false_iff, bool_decide_eq_true in Hn. exact Hn.
Qed.


(** * The visibility observer *)

Lemma untilPx_digits u rest :
  untilPx (NilEmpty.string_of_uint u ++ String "p" (String "x" rest)) =
  Some (NilEmpty.string_of_uint u).
Proof.
  induction u as [|u IH|u IH|u IH|u IH|u IH|u IH|u IH|u IH|u IH|u IH];
    [reflexivity|..];
    cbn [NilEmpty.string_of_uint];
    match goal with
    | |- untilPx (String ?c ?s ++ ?t)%string = _ =>
        change (untilPx (String c s ++ t)%string)
          with (option_map (String c) (untilPx (s ++ t)%string))
    end;
    rewrite IH; reflexivity.
Qed.

Lemma numberToString_N (h : N) :
  exists u, u <> Decimal.Nil /\ numberToString (Z.of_N h) = NilEmpty.string_of_uint u /\
            Z.of_uint u = Z.of_N h.
Proof.
  destruct h as [|p].
  - exists (Decimal.D0 Decimal.Nil). repeat split. discriminate.
  - exists (Pos.to_uint p). split; [apply DecimalPos.Unsigned.to_uint_nonnil|]. split.
    + unfold numberToString. cbn [Z.of_N Z.to_int NilZero.string_of_int NilZero.string_of_uint].
      pose proof (DecimalPos.Unsigned.to_uint_nonnil p). now destruct (Pos.to_uint p).
    + unfold Z.of_uint. now rewrite DecimalPos.Unsigned.of_to.
Qed.

(** The top offset of the root margin that the component builds is the
    negative of the height it was built from. *)
Lemma rootMarginTop_template (h : N) :
  rootMarginTop ("-" ++ numberToString (Z.of_N h) ++ "px 0px 0px 0px")%string =
  Some (- Z.of_N h).
Proof.
  destruct (numberToString_N h) as (u & Hnil & -> & Hz).
  assert (Hpx : untilPx ("-" ++ NilEmpty.string_of_uint u ++ "px 0px 0px 0px")%string =
                Some (String "-" (NilEmpty.string_of_uint u))).
  { change (untilPx ("-" ++ NilEmpty.string_of_uint u ++ "px 0px 0px 0px")%string)
      with (option_map (String "-")
              (untilPx (NilEmpty.string_of_uint u ++
                        String "p" (String "x" " 0px 0px 0px"))%string)).
    now rewrite untilPx_digits. }
  assert (Hu : NilZero.uint_of_string (NilEmpty.string_of_uint u) = Some u).
  { unfold NilZero.uint_of_string. pose proof (NilEmpty.usu u) as Husu.
    destruct (NilEmpty.string_of_uint u) eqn:Hs; [|exact Husu].
    destruct u; discriminate || contradiction. }
  unfold rootMarginTop. rewrite Hpx.
  change (NilZero.int_of_string (String "-" (NilEmpty.string_of_uint u)))
    with (option_map Decimal.Neg (NilZero.uint_of_string (NilEmpty.string_of_uint u))).
  rewrite Hu. cbn [option_map Z.of_int]. now rewrite Hz.
Qed.

Lemma clientHeightAt_N doc p : exists h : N, clientHeightAt doc p = Z.of_N h.
Proof.
  unfold clientHeightAt. destruct (nodeAt doc p) as [e|]; [now exists (clientHeight e)|now exists 0%N].
Qed.

(** * Wiring: the scroll listener and the observer *)

Section Wiring.
Context `{Constants}.

Lemma heightsBelowFirst_one doc tbs :
  length tbs = 1%nat -> heightsBelowFirst doc tbs = 0.
Proof. unfold heightsBelowFirst. now intros ->. Qed.

(** An event either wires the controller, in an update cycle, or gives
    it no new scroll callback and no new observer. *)
Lemma step_wires doc m at_ es e :
  let w := run es (fresh doc m at_) in
  let w' := exec (step e) w in
  (isUpdate e = true /\ Wires w w') \/
  ((contentScrollCallback w' = contentScrollCallback w \/ contentScrollCallback w' = None) /\
   (intersectionObserver w' = intersectionObserver w \/ intersectionObserver w' = None)).
Proof.
  intros w w'. pose proof (reachable_Shape doc m at_ es) as Hw. fold w in Hw.
  destruct (isUpdate e) eqn:He.
  - assert (Hw' : w' = exec (step DidUpdate) w) by (now destruct e).
    destruct (collapsibleHeaderInitialized w) eqn:Hinit.
    + right. unfold step, componentDidUpdate, exec in Hw'.
      rewrite (update_initialized _ w Hw Hinit) in Hw'. cbn [finalWorld] in Hw'.
      destruct (canCollapse w); [rewrite Hw'; split; now left|].
      destruct (destroy_facts _ w Hw) as (_ & _ & _ & Ho & Hq & _). rewrite <- Hw' in Ho, Hq.
      split; now right.
    + destruct (update_not_initialized _ w Hw Hinit) as [_ Ho]. rewrite <- Hw' in Ho.
      destruct Ho as [Hcan|Hcan Hc|p c Hcan Hp Hc Hbail
                     |p c s mh main scroll first rest Hcan Hp Hc Hs Hmh Hmain Hscroll Htb].
      * right. split; now left.
      * right. split; now left.
      * right. split; left; reflexivity.
      * left. split; [reflexivity|]. split; [exact Hinit|].
        exists p, c, s, mh, main, scroll, first, rest. repeat split; assumption.
  - right. subst w'. clear -Hw He.
    destruct Hw; destruct e; try discriminate; js;
      rewrite ?lookup_empty, ?lookup_singleton; auto.
    all: try (destruct s; js; now auto).
    all: try (repeat case_bool_decide; repeat case_decide; unfold observerOf; js; now auto).
    all: try (repeat case_bool_decide; repeat case_decide; unfold observerOf; js;
              destruct (last (toolbars main)); js; now auto).
    all: try (repeat case_bool_decide; repeat case_decide; unfold observerOf; js;
              destruct (Qle_bool cutoff (intersectionRatio entry)); js; now auto).
Qed.

(** C5.  The remaining height is the sum of the client heights of the
    toolbars of the condensing header at indices 1 to n-1, hence 0 for a
    single toolbar, and this is the value that the scroll callback hands
    to the scroll handler. *)
Theorem remaining_height_is_sum_below_first :
  (forall doc idx w,
     remainingHeightOf doc idx w = Return (heightsBelowFirst doc (toolbars idx)) w) /\
  (forall doc idx, length (toolbars idx) = 1%nat -> heightsBelowFirst doc (toolbars idx) = 0) /\
  forall doc m at_ es e cb main scroll rh,
    let w := run es (fresh doc m at_) in
    let w' := exec (step e) w in
    contentScrollCallback w = None ->
    contentScrollCallback w' = Some cb ->
    code cb = ContentScroll main scroll rh ->
    createHeaderIndex (document w) (el w) = Some scroll /\
    rh = heightsBelowFirst (document w) (toolbars scroll) /\
    forall arg w0, call cb arg w0 = handleContentScroll (scrollEl w0) main scroll rh w0.
Proof.
  split; [apply remainingHeightOf_sum|]. split; [intros; now apply heightsBelowFirst_one|].
  intros doc m at_ es e cb main scroll rh. cbv zeta. intros Hnone Hsome Hcode.
  pose proof (step_wires doc m at_ es e) as Hsw. cbv zeta in Hsw.
  destruct Hsw as [[_ (_ & Hwires)]|[[Hsame|Hgone] _]]; [|congruence..].
  destruct Hwires as (p & c & s & mh & main' & scroll' & first & rest & _ & _ & _ & _ & _ & _
                      & Hidx & _ & Hw').
  rewrite Hw' in Hsome. unfold wired in Hsome.
  cbn [contentScrollCallback] in Hsome. injection Hsome as <-. cbn [code] in Hcode.
  injection Hcode as -> -> <-. repeat split; auto.
Qed.

End Wiring.

(** * The lifecycle of the controller *)

Section Lifecycle.
Context `{Constants}.

Lemma step_update e w : isUpdate e = true -> step e w = step DidUpdate w.
Proof. now destruct e. Qed.

Lemma exec_update e w : isUpdate e = true -> exec (step e) w = exec (step DidUpdate) w.
Proof. now destruct e. Qed.

Lemma UpdateOutcome_disabled w w' :
  UpdateOutcome w w' -> canCollapse w = false -> w' = w.
Proof. destruct 1; congruence. Qed.








(** C1, as amended.  In an update cycle of a controller that is not
    initialized, with collapsing enabled: nothing is thrown; when the
    content cannot be located the failure is logged, nothing else changes
    and the next cycle tries the setup again; when only the primary header
    cannot be located nothing is logged, and no listener and no observer
    is registered. *)
Theorem missing_content_is_soft_failure doc m at_ es e :
  let w := run es (fresh doc m at_) in
  let w' := exec (step e) w in
  isUpdate e = true ->
  canCollapse w = true ->
  collapsibleHeaderInitialized w = false ->
  returns (step e w) = true /\
  (contentElOf w (pageElOf w) = None ->
     w' = set_console (console w ++ [missingContent]) w /\
     collapsibleHeaderInitialized w' = false /\
     forall doc' m',
       let w2 := set_page doc' m' w' in
       canCollapse w2 = true ->
       checkCollapsibleHeader w2 =
       setupCollapsibleHeader (contentElOf w2 (pageElOf w2)) (pageElOf w2) w2) /\
  (forall p c,
     pageElOf w = Some p -> contentElOf w (Some p) = Some c ->
     mainHeaderOf (document w) p = None ->
     console w' = console w /\ Quiet w').
Proof.
  cbv zeta. intros He Hcan Hinit. rewrite (step_update e _ He), (exec_update e _ He).
  pose proof (reachable_Shape doc m at_ es) as Hw.
  destruct (update_not_initialized _ _ Hw Hinit) as [Hr Ho].
  pose proof (Shape_idle_inv _ _ Hw Hinit) as Hidle.
  split; [exact Hr|]. split.
  - intros Hnone.
    destruct Ho as [Hcan'|Hcan' Hc|p c Hcan' Hp Hc Hbail
                   |p c s mh main scroll first rest Hcan' Hp Hc Hs Hmh Hmain Hscroll Htb];
      try (rewrite Hp in Hnone; congruence); [congruence|].
    split; [reflexivity|]. split; [exact Hinit|].
    intros doc' m'. cbv zeta. intros Hcan2.
    unfold checkCollapsibleHeader, checkUntilAwait, setupCollapsibleHeader, bind, gets.
    rewrite Hcan2.
    cbn [collapsibleHeaderInitialized set_page set_console]. rewrite Hinit. reflexivity.
  - intros p c Hp Hc Hmh.
    destruct Ho as [Hcan'|Hcan' Hc'|p' c' Hcan' Hp' Hc' Hbail
                   |p' c' s mh main scroll first rest Hcan' Hp' Hc' Hs Hmh' Hmain Hscroll Htb].
    + congruence.
    + rewrite Hp in Hc'. congruence.
    + rewrite Hidle. repeat split.
    + assert (p' = p) by congruence. subst p'. congruence.
Qed.


(** The outer read task of the setup on any world. *)
Lemma setupRead_deactivates w0 p mh s main scroll :
  mainHeaderOf (document w0) p = Some mh -> scrollEl w0 = Some s ->
  createHeaderIndex (document w0) mh = Some main ->
  createHeaderIndex (document w0) (el w0) = Some scroll ->
  let w1 := exec (setupRead p) w0 in
  returns (setupRead p w0) = true /\
  inactiveHeaders w1 = inactiveHeaders w0 ∪ {[ mh ]} /\
  borderVisible w1 = borderVisible w0 /\ titleScale w1 = titleScale w0 /\
  scrollTop w1 = scrollTop w0.
Proof.
  destruct w0 as [doc m st at_ init s0 cb o n ls obs cons rs ws inact border scale clones].
  cbn [document scrollEl el]. intros Hmh -> Hmain Hscroll. cbv zeta.
  destruct (createHeaderIndex_Some _ _ _ Hmain) as [Hm _].
  js. rewrite Hmh. js. rewrite Hmain, Hscroll. js. rewrite remainingHeightOf_sum. js.
  rewrite Hm.
  match goal with |- context [match ?b with true => _ | false => _ end] => destruct b end;
    repeat split.
Qed.

(** C10.  The outer read task of the setup, once it has found the
    primary header, the scroll element and the two indexes, deactivates
    the primary header before it registers anything: when it ends the
    primary header is inactive, no other active flag has changed, and the
    border and the scale of the title, which only the callbacks write,
    are untouched.  So an update cycle that finds the page container, the
    content, its scroll element, the primary header and the two indexes
    ends with the primary header inactive and the condensing header
    active; and they stay so until an intersection is reported. *)
Theorem successful_setup_deactivates_primary doc m at_ es e :
  let w := run es (fresh doc m at_) in
  let w' := exec (step e) w in
  (forall w0 p mh s main scroll,
     mainHeaderOf (document w0) p = Some mh -> scrollEl w0 = Some s ->
     createHeaderIndex (document w0) mh = Some main ->
     createHeaderIndex (document w0) (el w0) = Some scroll ->
     let w1 := exec (setupRead p) w0 in
     returns (setupRead p w0) = true /\
     isActive w1 mh = false /\
     (forall h, h <> mh -> isActive w1 h = isActive w0 h) /\
     borderVisible w1 = borderVisible w0 /\ titleScale w1 = titleScale w0) /\
  (isUpdate e = true -> canCollapse w = true -> collapsibleHeaderInitialized w = false ->
   forall p c s mh main scroll,
     pageElOf w = Some p -> contentElOf w (Some p) = Some c ->
     scrollElementOf (document w) c = Some s ->
     mainHeaderOf (document w) p = Some mh ->
     createHeaderIndex (document w) mh = Some main ->
     createHeaderIndex (document w) (el w) = Some scroll ->
     isActive w' mh = false /\ isActive w' (el w) = true /\
     borderVisible w' = ∅ /\ titleScale w' = None) /\
  (forall o, intersectionObserver w = None -> intersectionObserver w' = Some o ->
     exists page mainHeader,
       pageElOf w = Some page /\
       mainHeaderOf (document w) page = Some mainHeader /\
       isActive w' mainHeader = false /\
       isActive w' (el w) = true) /\
  (forallb (fun e => negb (isIntersection e)) es = true ->
   forall o ob main scroll,
     observers w !! o = Some ob ->
     code (callback ob) = ToolbarIntersection main scroll ->
     isActive w (headerEl main) = false /\ isActive w (headerEl scroll) = true).
Proof.
  cbv zeta.
  assert (Hwired : forall p mh main,
            canCollapse (run es (fresh doc m at_)) = true ->
            mainHeaderOf (document (run es (fresh doc m at_))) p = Some mh ->
            createHeaderIndex (document (run es (fresh doc m at_))) mh = Some main ->
            forall s scroll first,
              isActive (wired (run es (fresh doc m at_)) s main scroll first) mh = false /\
              isActive (wired (run es (fresh doc m at_)) s main scroll first)
                (el (run es (fresh doc m at_))) = true).
  { intros p mh main Hcan Hmh Hmain s scroll first.
    destruct (createHeaderIndex_Some _ _ _ Hmain) as [Hm _].
    pose proof (canCollapse_main_ne _ p mh Hcan Hmh) as Hne.
    unfold isActive, wired. cbn [inactiveHeaders]. rewrite Hm. split.
    - apply bool_decide_eq_false. intros Hn. apply Hn. now apply elem_of_singleton.
    - apply bool_decide_eq_true. rewrite elem_of_singleton. congruence. }
  split; [|split; [|split]].
  - intros w0 p mh s main scroll Hmh Hs Hmain Hscroll. cbv zeta.
    destruct (setupRead_deactivates w0 p mh s main scroll Hmh Hs Hmain Hscroll)
      as (Hr & Hi & Hb & Ht & _).
    split; [exact Hr|]. unfold isActive. rewrite Hi. split; [|split; [|now split]].
    + apply bool_decide_eq_false. intros Hn. apply Hn. apply elem_of_union_r.
      now apply elem_of_singleton.
    + intros h Hh. apply bool_decide_ext. rewrite elem_of_union, elem_of_singleton. tauto.
  - intros He Hcan Hinit p c s mh main scroll Hp Hc Hs Hmh Hmain Hscroll.
    rewrite (exec_update e _ He).
    destruct (update_not_initialized _ _ (reachable_Shape doc m at_ es) Hinit) as [_ Ho].
    destruct Ho as [Hcan'|Hcan' Hc'|p' c' Hcan' Hp' Hc' Hbail
                   |p' c' s' mh' main' scroll' first rest Hcan' Hp' Hc' Hs' Hmh' Hmain' Hscroll' Htb].
    + congruence.
    + rewrite Hp in Hc'. congruence.
    + exfalso. assert (p' = p) by congruence. subst p'. assert (c' = c) by congruence. subst c'.
      destruct Hbail as [Hb|[Hb|(mh2 & Hmh2 & [Hb|Hb])]]; congruence.
    + assert (p' = p) by congruence. subst p'. assert (mh' = mh) by congruence. subst mh'.
      destruct (Hwired p mh main' Hcan Hmh Hmain' s' scroll' first) as [Ha Hb].
      split; [exact Ha|]. split; [exact Hb|]. split; reflexivity.
  - intros o Hnone Hsome.
    pose proof (step_wires doc m at_ es e) as Hsw. cbv zeta in Hsw.
    destruct Hsw as [[_ (_ & Hwires)]|[_ [Hsame|Hgone]]]; [|congruence..].
    destruct Hwires as (p & c & s & mh & main & scroll & first & rest & Hcan & Hp & _ & _ & Hmh
                        & Hmain & Hidx & Htb & Hw').
    rewrite Hw'. exists p, mh. split; [exact Hp|]. split; [exact Hmh|].
    now apply (Hwired p).
  - intros Hes o ob main scroll Hob Hcode.
    pose proof (reachable_pristine doc m at_ es Hes) as Hw. unfold isActive.
    destruct Hw as [| | ? ? ? ? ? ? ? ? ? ? ? ? ? ? ? ? ? [Hin Hout]
                   | ? ? ? ? ? ? ? ? ? ? ? ? ? [Hin Hout]];
      cbn [observers inactiveHeaders] in *;
      try (rewrite lookup_empty in Hob; discriminate);
      apply lookup_singleton_Some in Hob as [_ <-];
      cbn [observerOf callback code] in Hcode; injection Hcode as <- <-;
      (split; [apply bool_decide_eq_false; tauto|now apply bool_decide_eq_true]).
Qed.

End Lifecycle.

(** * The pages of the documentation *)

(** The update cycle of the documentation's page wires the controller:
    the index of the condensing header has two toolbars, the remaining
    height is the height of the search toolbar, and both mirrors exist. *)
Example settings_page_attach :
  let w := @run sampleConstants [DidLoad] (fresh settingsPage ios settingsHeader) in
  state w = Active /\
  option_map (fun i => length (toolbars i)) (createHeaderIndex settingsPage settingsHeader) = Some 2%nat /\
  option_map code (contentScrollCallback w) =
    option_map (fun i => ContentScroll
      {| headerEl := [0%nat];
         toolbars := [ {| toolbarEl := [0; 0]%nat; ionTitleEl := Some [0; 0; 0]%nat |} ] |} i 60)
      (createHeaderIndex settingsPage settingsHeader) /\
  clonedElements w = ["ion-title"; "ion-back-button"]%string.
Proof. vm_compute. repeat split. Qed.

(** Scrolling the condensing toolbar away makes the primary header the
    active one. *)
Example settings_page_scrolled_away :
  let w := @run sampleConstants
             [DidLoad; Scroll [1%nat] 120; Intersection 2 {| intersectionRatio := 1 # 10 |}]
             (fresh settingsPage ios settingsHeader) in
  isActive w [0%nat] = true /\ isActive w settingsHeader = false.
Proof. vm_compute. split; reflexivity. Qed.

(** C1 as stated does not hold: on a page whose only header is the
    condensing one, the update cycle reports nothing. *)
Lemma missing_primary_header_counterexample :
  exists w, ~ @softFailureAsStated sampleConstants w.
Proof.
  exists (fresh noPrimaryPage ios [0; 0]%nat). intros Hstated.
  unfold softFailureAsStated in Hstated.
  assert (Hmissing : exists p, pageElOf (fresh noPrimaryPage ios [0; 0]%nat) = Some p /\
            mainHeaderOf (document (fresh noPrimaryPage ios [0; 0]%nat)) p = None)
    by (exists []; split; reflexivity).
  destruct (Hstated eq_refl eq_refl (or_intror Hmissing)) as (_ & Hlog & _).
  vm_compute in Hlog. discriminate.
Qed.

(** A page without content: the failure is logged and nothing else
    changes. *)
Lemma missing_content_witness :
  let w := fresh noContentPage ios [1%nat] in
  canCollapse w = true /\
  contentElOf w (pageElOf w) = None /\
  exec (@step sampleConstants DidUpdate) w = set_console [missingContent] w.
Proof.
  cbv zeta. split; [reflexivity|]. split; [reflexivity|].
  exact (proj1 (proj1 (proj2
    (@missing_content_is_soft_failure sampleConstants noContentPage ios [1%nat] [] DidUpdate
       eq_refl eq_refl eq_refl)) eq_refl)).
Defined.

(** C2, which the code does not meet.  Turning the mode away from
    ['ios'] tears the controller down, the observer disconnected and the
    scroll listener removed, but the controller stays initialized;
    turning the mode back sets nothing up again. *)
Theorem teardown_keeps_initialized :
  let w1 := @run sampleConstants [DidLoad] (fresh settingsPage ios settingsHeader) in
  let w2 := @run sampleConstants [Render settingsPage md; DidUpdate] w1 in
  let w3 := @run sampleConstants [Render settingsPage ios; DidUpdate] w2 in
  (intersectionObserver w1 = Some 2%nat /\
   length (scrollListeners w1) = 1%nat /\ length (liveObservers w1) = 1%nat) /\
  (Quiet w2 /\ collapsibleHeaderInitialized w2 = true /\ canCollapse w2 = false) /\
  (canCollapse w3 = true /\ Quiet w3 /\ w3 = set_page settingsPage ios w2).
Proof. vm_compute. repeat split. Qed.

(** The scale factor on the documentation's page. *)
Lemma scale_factor_witness :
  (@minScale sampleConstants <= 1)%Q /\
  (@scaleFactor sampleConstants 60 30 <= @scaleFactor sampleConstants 60 10)%Q.
Proof.
  split; [unfold Qle; simpl; lia|].
  apply (@scale_factor_monotone_and_bounded sampleConstants 60 10 30);
    unfold Qle; simpl; lia.
Defined.

(** The observer of the documentation's page: a quarter of the first
    toolbar of the condensing header, measured from 44 pixels below the
    top. *)
Example settings_page_observer :
  let w := @run sampleConstants [DidLoad] (fresh settingsPage ios settingsHeader) in
  option_map (fun ob => (threshold ob, rootMargin ob, rootMarginTop (rootMargin ob), targets ob))
    (observers w !! 2%nat) =
  Some (0.25%Q, "-44px 0px 0px 0px"%string, Some (-44), [[1; 0; 0]%nat]) /\
  isActive w [0%nat] = false /\ isActive w settingsHeader = true.
Proof. vm_compute. repeat split. Qed.

(** With [collapse] unset nothing is ever registered. *)
Example plain_header_stays_disabled :
  let w := @run sampleConstants [DidLoad; Scroll [1%nat] 30; DidUpdate]
             (fresh settingsPage ios [0%nat]) in
  state w = Disabled /\ scrollListeners w = [] /\ liveObservers w = [] /\ console w = [].
Proof. vm_compute. repeat split. Qed.

(** * Further properties of the controller *)

Section Further.
Context `{Constants}.

(** In every state a controller reaches, none of its lifecycle hooks and
    none of its callbacks throws. *)
Theorem no_event_throws doc m at_ es e :
  returns (step e (run es (fresh doc m at_))) = true.
Proof. eapply step_Shape. apply reachable_Shape. Qed.

(** Once set, the initialized flag stays set: teardown does not clear
    it. *)
Theorem initialized_is_never_reset doc m at_ es e :
  let w := run es (fresh doc m at_) in
  implb (collapsibleHeaderInitialized w)
        (collapsibleHeaderInitialized (exec (step e) w)) = true.
Proof.
  cbv zeta. destruct (collapsibleHeaderInitialized (run es (fresh doc m at_))) eqn:Hinit;
    [|reflexivity].
  destruct (step_Stable _ e _ (reachable_Shape doc m at_ es) (or_intror Hinit)) as [Hi _].
  rewrite Hi, Hinit. reflexivity.
Qed.

(** When the content is there and the primary header is not, the update
    cycle still creates the mirrors and marks the controller
    initialized. *)
Theorem missing_primary_header_marks_initialized doc m at_ es e :
  let w := run es (fresh doc m at_) in
  isUpdate e = true ->
  canCollapse w = true ->
  collapsibleHeaderInitialized w = false ->
  forall p c,
    pageElOf w = Some p -> contentElOf w (Some p) = Some c ->
    mainHeaderOf (document w) p = None ->
    exec (step e) w = unindexed w (scrollElementOf (document w) c).
Proof.
  cbv zeta. intros He Hcan Hinit p c Hp Hc Hmh. rewrite (exec_update e _ He).
  destruct (update_not_initialized _ _ (reachable_Shape doc m at_ es) Hinit) as [_ Ho].
  destruct Ho as [Hcan'|Hcan' Hc'|p' c' Hcan' Hp' Hc' Hbail
                 |p' c' s mh main scroll first rest Hcan' Hp' Hc' Hs Hmh' Hmain Hscroll Htb].
  - congruence.
  - rewrite Hp in Hc'. congruence.
  - assert (p' = p) by congruence. subst p'. assert (c' = c) by congruence. now subst c'.
  - assert (p' = p) by congruence. subst p'. congruence.
Qed.

End Further.

(** The page without a primary header. *)
Lemma missing_primary_header_witness :
  let w := fresh noPrimaryPage ios [0; 0]%nat in
  canCollapse w = true /\
  mainHeaderOf noPrimaryPage [] = None /\
  exec (@step sampleConstants DidUpdate) w = unindexed w (Some [0%nat]).
Proof.
  cbv zeta. split; [reflexivity|]. split; [reflexivity|].
  exact (@missing_primary_header_marks_initialized sampleConstants noPrimaryPage ios
           [0; 0]%nat [] DidUpdate eq_refl eq_refl eq_refl [] [0%nat] eq_refl eq_refl eq_refl).
Defined.

(** * The rendered host *)

Lemma collapse_key_inj c c' :
  ("header-collapse-" ++ c)%string = ("header-collapse-" ++ c')%string -> c = c'.
Proof.
  assert (Hinj : forall s, (s ++ c)%string = (s ++ c')%string -> c = c').
  { induction s as [|a s IH]; [auto|]. intros Heq. apply IH.
    change ((String a s ++ c)%string) with (String a (s ++ c)%string) in Heq.
    change ((String a s ++ c')%string) with (String a (s ++ c')%string) in Heq.
    congruence. }
  apply Hinj.
Qed.

Lemma renderedCollapse_nonempty c : renderedCollapse c <> "".
Proof. destruct c as [[|a s]|]; discriminate. Qed.

(** The host of [render]: its role is ["banner"]; it carries the class of
    the mode and [header-<mode>]; it carries [header-collapse-<c>] for
    exactly one [c], which is ['none'] for an unset or empty [collapse]
    and [collapse] itself otherwise; it carries [header-translucent] and
    [header-translucent-<mode>] exactly when [translucent] is set, and no
    other class.  So [header-collapse-condense] is rendered exactly when
    [collapse] is ['condense'], in either mode. *)
Theorem render_classes (w : World) (translucent : bool) :
  let h := render w translucent in
  let mode := modeName (mode w) in
  role h = "banner" /\
  (forall c, hasClass h ("header-collapse-" ++ c) = true <-> c = renderedCollapse (thisCollapse w)) /\
  (forall name,
     hasClass h name = true <->
     name = mode \/ name = ("header-" ++ mode)%string \/
     name = ("header-collapse-" ++ renderedCollapse (thisCollapse w))%string \/
     (translucent = true /\
      (name = "header-translucent" \/ name = ("header-translucent-" ++ mode)%string))) /\
  (hasClass h "header-collapse-condense" = true <-> thisCollapse w = Some "condense").
Proof.
  cbv zeta.
  assert (Hall : forall name,
     hasClass (render w translucent) name = true <->
     name = modeName (mode w) \/ name = ("header-" ++ modeName (mode w))%string \/
     name = ("header-collapse-" ++ renderedCollapse (thisCollapse w))%string \/
     (translucent = true /\
      (name = "header-translucent" \/
       name = ("header-translucent-" ++ modeName (mode w))%string))).
  { intros name. unfold hasClass, render. cbn [class]. rewrite bool_decide_eq_true.
    rewrite !lookup_insert, lookup_empty.
    destruct (mode w); cbv [modeName String.append];
      repeat case_decide; subst; destruct translucent;
      split; intros Hx; try discriminate; try reflexivity; try tauto;
      repeat match goal with
      | H : _ \/ _ |- _ => destruct H
      | H : _ /\ _ |- _ => destruct H
      end; try congruence; try discriminate; auto 10. }
  assert (Hone : forall c, hasClass (render w translucent) ("header-collapse-" ++ c) = true <->
                           c = renderedCollapse (thisCollapse w)); [|split; [reflexivity|];
    split; [exact Hone|]; split; [exact Hall|]].
  2:{ change "header-collapse-condense" with ("header-collapse-" ++ "condense")%string.
      rewrite Hone. destruct (thisCollapse w) as [[|a s]|]; cbn [renderedCollapse];
        split; intros Hc; try discriminate; congruence. }
  intros c. rewrite Hall. split.
  - intros [Hm|[Hm|[Hm|[_ [Hm|Hm]]]]].
    + destruct (mode w); cbv [modeName String.append] in Hm; discriminate.
    + destruct (mode w); cbv [modeName String.append] in Hm; discriminate.
    + now apply collapse_key_inj.
    + cbv [String.append] in Hm. discriminate.
    + destruct (mode w); cbv [modeName String.append] in Hm; discriminate.
  - intros ->. auto.
Qed.

(** * The content of the page *)

(** [contentEl] is the first [ion-content] strictly inside the page
    container, in document order; there is none exactly when there is no
    page container or no [ion-content] inside it. *)
Theorem content_is_first_ion_content (w : World) (pageEl : option Loc) :
  match contentElOf w pageEl with
  | Some contentEl =>
      exists p, pageEl = Some p /\
        inside (document w) p "ion-content" contentEl /\
        forall c, inside (document w) p "ion-content" c -> c = contentEl \/ before contentEl c
  | None =>
      forall p, pageEl = Some p -> forall c, ~ inside (document w) p "ion-content" c
  end.
Proof.
  unfold contentElOf, querySelector. destruct pageEl as [p|]; [|intros p Hp; discriminate].
  pose proof (sorted_querySelectorAll (document w) p [Tag "ion-content"]) as Hsorted.
  destruct (querySelectorAll (document w) p [Tag "ion-content"]) as [|c0 rest] eqn:Hq;
    cbn [head].
  - intros p' [= <-] c Hc. apply elem_of_headers in Hc. rewrite Hq in Hc. inversion Hc.
  - exists p. split; [reflexivity|]. split.
    + apply elem_of_headers. rewrite Hq. now left.
    + intros c Hc. apply elem_of_headers in Hc. rewrite Hq in Hc.
      apply elem_of_cons in Hc as [->|Hc]; [now left|right].
      apply StronglySorted_inv in Hsorted as [_ Hall].
      rewrite Forall_forall in Hall. now apply Hall.
Qed.

(** * Teardown *)

Lemma destroy_keeps (w : World) :
  let w' := exec destroyCollapsibleHeader w in
  document w' = document w /\ mode w' = mode w /\ el w' = el w /\
  collapsibleHeaderInitialized w' = collapsibleHeaderInitialized w /\
  inactiveHeaders w' = inactiveHeaders w /\ borderVisible w' = borderVisible w /\
  titleScale w' = titleScale w.
Proof.
  destruct w as [doc m st at_ init s cb o n ls obs cons rs ws inact border scale clones].
  destruct o as [o|], s as [s|], cb as [cb|]; js; repeat split.
Qed.

Lemma destroy_twice (w : World) :
  exec destroyCollapsibleHeader (exec destroyCollapsibleHeader w) =
  exec destroyCollapsibleHeader w.
Proof.
  destruct w as [doc m st at_ init s cb o n ls obs cons rs ws inact border scale clones].
  destruct o as [o|], s as [s|], cb as [cb|]; reflexivity.
Qed.

(** [destroyCollapsibleHeader] on any state of the component: it does not
    throw; doing it twice is doing it once; afterwards the component
    holds no observer, and the observer it held observes nothing while
    every other observer is as it was; when it holds both a scroll
    element and a scroll callback, the callback is forgotten and exactly
    the registrations of that callback on that element are removed; when
    one of the two is missing, callback and listeners stay as they
    are. *)
Theorem destroy_releases_and_is_idempotent (w : World) :
  let w' := exec destroyCollapsibleHeader w in
  returns (destroyCollapsibleHeader w) = true /\
  exec destroyCollapsibleHeader w' = w' /\
  intersectionObserver w' = None /\
  (forall o o', intersectionObserver w = Some o ->
     observers w' !! o' =
     if decide (o' = o) then clearTargets <$> observers w !! o else observers w !! o') /\
  (intersectionObserver w = None -> observers w' = observers w) /\
  (forall s cb, scrollEl w = Some s -> contentScrollCallback w = Some cb ->
     contentScrollCallback w' = None /\
     forall l, l ∈ scrollListeners w' <->
               l ∈ scrollListeners w /\ ~ (fst l = s /\ ref (snd l) = ref cb)) /\
  (scrollEl w = None \/ contentScrollCallback w = None ->
     contentScrollCallback w' = contentScrollCallback w /\
     scrollListeners w' = scrollListeners w).
Proof.
  destruct w as [doc m st at_ init s cb o n ls obs cons rs ws inact border scale clones].
  assert (Hfilter : forall s0 cb0 l,
    l ∈ List.filter (fun l => negb (sameListener s0 cb0 l)) ls <->
    l ∈ ls /\ ~ (fst l = s0 /\ ref (snd l) = ref cb0)).
  { intros s0 cb0 l. rewrite list_elem_of_In, filter_In, <- list_elem_of_In.
    unfold sameListener. rewrite negb_true_iff, andb_false_iff, bool_decide_eq_false,
      Nat.eqb_neq.
    destruct (decide (fst l = s0)); tauto. }
  destruct o as [o|], s as [s|], cb as [cb|]; js;
    cbn [intersectionObserver scrollEl contentScrollCallback scrollListeners observers];
    repeat match goal with |- _ /\ _ => split end;
    try reflexivity; try discriminate;
    try (intros [?|?]; try discriminate; split; reflexivity);
    try (intros s0 cb0 [= <-] [= <-]; split; [reflexivity|apply Hfilter]);
    try (intros o0 o' [= <-]; rewrite lookup_alter; repeat case_decide;
         congruence || reflexivity);
    try (intros o0 o' [=]).
Qed.

(** [destroyCollapsibleHeader] leaves everything else as it was: the
    page, the initialized flag, the scroll element, the console, the
    queued tasks, the flags of the headers, the border, the scale of the
    title and the mirrors. *)
Theorem destroy_leaves_the_rest (w : World) :
  let w' := exec destroyCollapsibleHeader w in
  document w' = document w /\ mode w' = mode w /\ scrollTop w' = scrollTop w /\
  el w' = el w /\
  collapsibleHeaderInitialized w' = collapsibleHeaderInitialized w /\
  scrollEl w' = scrollEl w /\
  nextRef w' = nextRef w /\ console w' = console w /\
  domReads w' = domReads w /\ domWrites w' = domWrites w /\
  inactiveHeaders w' = inactiveHeaders w /\ borderVisible w' = borderVisible w /\
  titleScale w' = titleScale w /\ clonedElements w' = clonedElements w.
Proof.
  destruct w as [doc m st at_ init s cb o n ls obs cons rs ws inact border scale clones].
  destruct o as [o|], s as [s|], cb as [cb|]; js; repeat split.
Qed.

(** * A teardown before the frame *)

Section EarlyTeardown.
Context `{Constants}.

(** When the component is unloaded after [componentDidLoad] has queued
    its tasks and before the frame that runs them, the teardown finds
    nothing to release and the tasks run all the same: the outcome is
    that of a load that nothing interrupted. *)
Theorem unload_before_the_frame_cancels_nothing doc m at_ es :
  let w := run es (fresh doc m at_) in
  collapsibleHeaderInitialized w = false ->
  loadThenUnloadBeforeFrame w = step DidLoad w.
Proof.
  cbv zeta. intros Hinit. pose proof (reachable_Shape doc m at_ es) as Hw.
  generalize dependent (run es (fresh doc m at_)). clear doc m at_ es. intros w Hinit Hw.
  rewrite (Shape_idle_inv false w Hw Hinit). unfold loadThenUnloadBeforeFrame. js.
  destruct (canCollapse _); js; [|reflexivity].
  destruct (pageElOf _) as [p|]; js; [|reflexivity].
  destruct (contentElOf _ _) as [c|]; js; [|reflexivity].
  destruct (scrollElementOf _ _) as [s|]; js; reflexivity.
Qed.

End EarlyTeardown.

(** The page of the documentation: unloaded before the frame, the header
    ends up with its scroll listener and its observer registered. *)
Lemma unload_before_the_frame_witness :
  let w := fresh settingsPage ios settingsHeader in
  collapsibleHeaderInitialized w = false /\
  loadThenUnloadBeforeFrame w = @step sampleConstants DidLoad w /\
  length (scrollListeners (exec loadThenUnloadBeforeFrame w)) = 1%nat /\
  length (liveObservers (exec loadThenUnloadBeforeFrame w)) = 1%nat.
Proof.
  cbv zeta. split; [reflexivity|].
  split; [exact (@unload_before_the_frame_cancels_nothing sampleConstants settingsPage ios
                   settingsHeader [] eq_refl)|].
  split; reflexivity.
Defined.

(** * Update cycles *)

Section Cycles.
Context `{Constants}.

(** What the update cycle looks at in the page depends on the document,
    the element and the mode only. *)
Lemma locators_ext w w' :
  document w' = document w -> el w' = el w -> mode w' = mode w ->
  canCollapse w' = canCollapse w /\ pageElOf w' = pageElOf w /\
  forall p, contentElOf w' p = contentElOf w p.
Proof.
  unfold canCollapse, hasCollapse, thisCollapse, pageElOf, tabsOf, pageOf, contentElOf.
  intros -> -> ->. auto.
Qed.

Lemma UpdateOutcome_page w w' :
  UpdateOutcome w w' ->
  document w' = document w /\ el w' = el w /\ mode w' = mode w /\
  scrollTop w' = scrollTop w /\
  (console w' = console w \/ console w' = console w ++ [missingContent]) /\
  (canCollapse w = true -> contentElOf w (pageElOf w) <> None ->
   collapsibleHeaderInitialized w' = true).
Proof.
  destruct 1 as [Hcan|Hcan Hc|p c Hcan Hp Hc Hbail
                |p c s mh main scroll first rest Hcan Hp Hc Hs Hmh Hmain Hscroll Htb];
    cbn; repeat split; auto; congruence.
Qed.

Lemma update_of_initialized w :
  Shape false w -> collapsibleHeaderInitialized w = true ->
  exec (step DidUpdate) w = if canCollapse w then w else exec destroyCollapsibleHeader w.
Proof.
  intros Hw Hinit. unfold exec at 1.
  change (step DidUpdate w) with ((checkCollapsibleHeader ;; frame)%js w).
  now rewrite (update_initialized false w Hw Hinit).
Qed.

Lemma update_of_initialized_twice w :
  Shape false w -> collapsibleHeaderInitialized w = true ->
  exec (step DidUpdate) (exec (step DidUpdate) w) = exec (step DidUpdate) w.
Proof.
  intros Hw Hinit. rewrite (update_of_initialized w Hw Hinit).
  destruct (canCollapse w) eqn:Hcan.
  - rewrite (update_of_initialized w Hw Hinit). now rewrite Hcan.
  - destruct (destroy_facts false w Hw) as (_ & Hw1 & _ & _).
    destruct (destroy_keeps w) as (Hd & Hm & He & Hi & _).
    destruct (locators_ext _ _ Hd He Hm) as (Hcan1 & _).
    rewrite (update_of_initialized _ Hw1 (eq_trans Hi Hinit)), Hcan1, Hcan.
    apply destroy_twice.
Qed.

(** An update cycle that follows an update cycle changes nothing, with
    one exception: while the header can collapse, is not initialized and
    finds no content, every cycle reports the missing content again. *)
Theorem update_cycle_is_idempotent_unless_content_is_missing doc m at_ es :
  let w := run es (fresh doc m at_) in
  let w2 := exec (step DidUpdate) (exec (step DidUpdate) w) in
  (canCollapse w = true -> collapsibleHeaderInitialized w = false ->
   contentElOf w (pageElOf w) = None ->
   console w2 = console w ++ [missingContent; missingContent] /\
   collapsibleHeaderInitialized w2 = false) /\
  (canCollapse w = false \/ collapsibleHeaderInitialized w = true \/
   contentElOf w (pageElOf w) <> None ->
   w2 = exec (step DidUpdate) w).
Proof.
  cbv zeta. pose proof (reachable_Shape doc m at_ es) as Hw.
  generalize dependent (run es (fresh doc m at_)). clear doc m at_ es. intros w Hw.
  assert (Hlog : forall w0, Shape false w0 -> canCollapse w0 = true ->
            collapsibleHeaderInitialized w0 = false -> contentElOf w0 (pageElOf w0) = None ->
            exec (step DidUpdate) w0 = set_console (console w0 ++ [missingContent]) w0).
  { intros w0 Hw0 Hcan Hinit Hnone.
    destruct (update_not_initialized false w0 Hw0 Hinit) as [_ Ho].
    destruct Ho as [Hcan'|Hcan' Hc|p c Hcan' Hp Hc Hbail
                   |p c s mh main scroll first rest Hcan' Hp Hc Hs Hmh Hmain Hscroll Htb];
      [congruence|reflexivity|rewrite Hp in Hnone; congruence..]. }
  split.
  - intros Hcan Hinit Hnone. rewrite (Hlog w Hw Hcan Hinit Hnone).
    set (w1 := set_console (console w ++ [missingContent]) w).
    assert (Hw1 : Shape false w1).
    { subst w1. rewrite (Shape_idle_inv false w Hw Hinit). constructor. }
    destruct (locators_ext w w1 eq_refl eq_refl eq_refl) as (Hcan1 & Hp1 & Hc1).
    rewrite (Hlog w1 Hw1); [|congruence|exact Hinit|rewrite Hp1, Hc1; exact Hnone].
    cbn. rewrite <- app_assoc. split; [reflexivity|exact Hinit].
  - intros Hcase. destruct (collapsibleHeaderInitialized w) eqn:Hinit.
    + now apply update_of_initialized_twice.
    + destruct (update_not_initialized false w Hw Hinit) as [_ Ho].
      destruct (canCollapse w) eqn:Hcan.
      * destruct Hcase as [Hcase|[Hcase|Hcase]]; try discriminate.
        destruct (UpdateOutcome_page _ _ Ho) as (Hd & He & Hm & _ & _ & Hi).
        destruct (locators_ext _ _ Hd He Hm) as (Hcan1 & _).
        destruct (lifecycle_Shape false w Hw) as [_ Hs].
        change (Shape false (exec (step DidUpdate) w)) in Hs.
        rewrite (update_of_initialized _ Hs (Hi Hcan Hcase)), Hcan1, Hcan. reflexivity.
      * now rewrite !(UpdateOutcome_disabled _ _ Ho Hcan).
Qed.

(** The console of a controller holds nothing but reports of the missing
    content, at most one for each update cycle there has been. *)
Theorem console_holds_missing_content_reports_only doc m at_ es :
  let w := run es (fresh doc m at_) in
  console w = repeat missingContent (length (console w)) /\
  (length (console w) <= length (List.filter isUpdate es))%nat.
Proof.
  cbv zeta. induction es as [|e es IH] using rev_ind; [split; [reflexivity|cbn; lia]|].
  rewrite run_snoc. pose proof (reachable_Shape doc m at_ es) as Hw.
  destruct IH as [IH1 IH2].
  set (w := run es (fresh doc m at_)) in *. clearbody w.
  rewrite List.filter_app, length_app. cbn [List.filter].
  destruct (isUpdate e) eqn:He.
  - rewrite (exec_update e w He). cbn [length].
    assert (Hc : console (exec (step DidUpdate) w) = console w \/
                 console (exec (step DidUpdate) w) = console w ++ [missingContent]).
    { destruct (collapsibleHeaderInitialized w) eqn:Hinit.
      - left. now destruct (step_Stable false DidUpdate w Hw (or_intror Hinit)).
      - destruct (update_not_initialized false w Hw Hinit) as [_ Ho].
        now destruct (UpdateOutcome_page _ _ Ho) as (_ & _ & _ & _ & Hc & _). }
    destruct Hc as [-> | ->].
    + split; [exact IH1|lia].
    + rewrite length_app. cbn [length]. split; [|lia].
      rewrite repeat_app. cbn [repeat]. now rewrite <- IH1.
  - destruct (step_Stable false e w Hw (or_introl He)) as [_ ->]. cbn [length].
    split; [exact IH1|lia].
Qed.

End Cycles.

(** * A read task that gives up *)

Section GivingUp.
Context `{Constants}.

(** When the content is there and the read task of the setup gives up,
    because the content has no scroll element or because one of the two
    headers cannot be indexed, nothing is reported and nothing is
    registered, and yet the mirrors are created and the controller is
    marked initialized. *)
Theorem read_task_gives_up_silently doc m at_ es e :
  let w := run es (fresh doc m at_) in
  isUpdate e = true ->
  canCollapse w = true ->
  collapsibleHeaderInitialized w = false ->
  forall p c,
    pageElOf w = Some p -> contentElOf w (Some p) = Some c ->
    scrollElementOf (document w) c = None \/
    (exists mh, mainHeaderOf (document w) p = Some mh /\
       (createHeaderIndex (document w) mh = None \/
        createHeaderIndex (document w) (el w) = None)) ->
    let w' := exec (step e) w in
    w' = unindexed w (scrollElementOf (document w) c) /\
    console w' = console w /\ Quiet w' /\
    collapsibleHeaderInitialized w' = true /\
    clonedElements w' = ["ion-title"; "ion-back-button"].
Proof.
  cbv zeta. intros He Hcan Hinit p c Hp Hc Hbail. rewrite (exec_update e _ He).
  pose proof (reachable_Shape doc m at_ es) as Hw.
  generalize dependent (run es (fresh doc m at_)). clear doc m at_ es.
  intros w Hcan Hinit Hp Hc Hbail Hw.
  destruct (update_not_initialized _ _ Hw Hinit) as [_ Ho].
  assert (Hu : exec (step DidUpdate) w = unindexed w (scrollElementOf (document w) c)).
  { destruct Ho as [Hcan'|Hcan' Hc'|p' c' Hcan' Hp' Hc' Hbail'
                   |p' c' s mh main scroll first rest Hcan' Hp' Hc' Hs Hmh' Hmain Hscroll Htb].
    - congruence.
    - rewrite Hp in Hc'. congruence.
    - assert (p' = p) by congruence. subst p'. assert (c' = c) by congruence. now subst c'.
    - assert (p' = p) by congruence. subst p'. assert (c' = c) by congruence. subst c'.
      destruct Hbail as [Hbail|(mh' & Hmh & [Hbail|Hbail])]; congruence. }
  rewrite Hu. rewrite (Shape_idle_inv false w Hw Hinit). repeat split.
Qed.

End GivingUp.

(** The page whose content has no scroll element. *)
Lemma read_task_gives_up_witness :
  let w := fresh noScrollPage ios settingsHeader in
  let w' := exec (@step sampleConstants DidLoad) w in
  canCollapse w = true /\ contentElOf w (pageElOf w) = Some [1%nat] /\
  w' = unindexed w None /\
  console w' = console w /\ Quiet w' /\
  collapsibleHeaderInitialized w' = true /\
  clonedElements w' = ["ion-title"; "ion-back-button"].
Proof.
  cbv zeta. split; [reflexivity|]. split; [reflexivity|].
  exact (@read_task_gives_up_silently sampleConstants noScrollPage ios settingsHeader []
           DidLoad eq_refl eq_refl eq_refl [] [1%nat] eq_refl eq_refl (or_introl eq_refl)).
Defined.

(** * Hooks that overlap *)

Section Overlap.
Context `{Constants}.

Lemma SameController_refl w : SameController w w.
Proof. repeat split. Qed.

Lemma SameController_trans w1 w2 w3 :
  SameController w1 w2 -> SameController w2 w3 -> SameController w1 w3.
Proof. unfold SameController. intuition congruence. Qed.

(** The callbacks write nothing but what header.utils writes. *)
Lemma call_same cb arg w : SameController w (finalWorld (call cb arg w)).
Proof.
  destruct w as [doc m st at_ init s cb0 o n ls obs cons rs ws inact border scale clones].
  destruct cb as [r [main scroll|main scroll rh]]; destruct arg as [|ev]; js.
  - repeat split.
  - destruct (Qle_bool cutoff (intersectionRatio ev)); js; repeat split.
  - destruct s as [s|]; js; [|repeat split].
    destruct (last (toolbars main)); js; repeat split.
  - destruct s as [s|]; js; [|repeat split].
    destruct (last (toolbars main)); js; repeat split.
Qed.

Lemma callAll_same cbs arg : forall w, SameController w (finalWorld (callAll cbs arg w)).
Proof.
  induction cbs as [|cb cbs IH]; intros w; [apply SameController_refl|].
  cbn [callAll]. unfold bind. pose proof (call_same cb arg w) as Hc.
  destruct (call cb arg w) as [[] w1|e w1]; cbn [finalWorld] in *; [|exact Hc].
  eapply SameController_trans; [exact Hc|apply IH].
Qed.

Lemma event_same e w :
  isUpdate e = false -> e <> DidUnload -> SameController w (exec (step e) w).
Proof.
  intros He Hu. destruct e as [| | |doc' m'|target top|o entry]; try discriminate;
    try congruence; unfold exec, step.
  - destruct w; repeat split.
  - unfold bind, modify, gets.
    eapply SameController_trans; [|apply callAll_same].
    destruct w; repeat split.
  - unfold bind, gets. destruct (observers w !! o) as [ob|]; [|apply SameController_refl].
    destruct (live ob); [apply call_same|apply SameController_refl].
Qed.

Lemma destroy_returns w :
  destroyCollapsibleHeader w = Return tt (exec destroyCollapsibleHeader w).
Proof.
  destruct w as [doc m st at_ init s cb o n ls obs cons rs ws inact border scale clones].
  destruct o as [o|], s as [s|], cb as [cb|]; reflexivity.
Qed.

Lemma destroy_other w :
  let w' := exec destroyCollapsibleHeader w in
  collapsibleHeaderInitialized w' = collapsibleHeaderInitialized w /\
  scrollEl w' = scrollEl w /\ nextRef w' = nextRef w /\
  domReads w' = domReads w /\ domWrites w' = domWrites w /\
  clonedElements w' = clonedElements w /\
  inactiveHeaders w' = inactiveHeaders w /\ borderVisible w' = borderVisible w /\
  titleScale w' = titleScale w /\
  (contentScrollCallback w' = None \/ contentScrollCallback w' = contentScrollCallback w) /\
  dom (observers w') = dom (observers w).
Proof.
  destruct w as [doc m st at_ init s cb o n ls obs cons rs ws inact border scale clones].
  destruct o as [o|], s as [s|], cb as [cb|]; js; rewrite ?dom_alter_L; repeat split; auto.
Qed.

(** The two pieces of the setup and of the check, put together, are the
    functions as they are written. *)
Lemma setupCollapsibleHeader_whole contentEl pageEl w :
  setupCollapsibleHeader contentEl pageEl w =
  match contentEl, pageEl with
  | Some contentEl, Some pageEl =>
      (s <- getScrollElement contentEl ;;
       modify (set_scrollEl s) ;;
       readTask (SetupRead pageEl) ;;
       writeTask CloneWrite ;;
       modify (set_collapsibleHeaderInitialized true))%js w
  | _, _ => consoleError missingContent w
  end.
Proof. destruct contentEl, pageEl; reflexivity. Qed.

Lemma checkCollapsibleHeader_whole w :
  checkCollapsibleHeader w =
  (can <- gets canCollapse ;;
   initialized <- gets collapsibleHeaderInitialized ;;
   if negb can && initialized then
     destroyCollapsibleHeader
   else if can && negb initialized then
     pageEl <- gets pageElOf ;;
     contentEl <- gets (fun w => contentElOf w pageEl) ;;
     setupCollapsibleHeader contentEl pageEl
   else ret tt)%js w.
Proof.
  unfold checkCollapsibleHeader, checkUntilAwait, setupCollapsibleHeader, bind, gets, ret.
  destruct (canCollapse w), (collapsibleHeaderInitialized w); cbn [negb andb];
    try reflexivity.
  now rewrite destroy_returns.
Qed.

Lemma frame_idle w : domReads w = [] -> domWrites w = [] -> frame w = Return tt w.
Proof.
  destruct w as [doc m st at_ init s cb o n ls obs cons rs ws inact border scale clones].
  cbn [domReads domWrites]. intros -> ->. reflexivity.
Qed.

(** A hook that finds the controller initialized is not suspended: it
    does nothing or tears down. *)
Lemma hook_of_initialized w :
  collapsibleHeaderInitialized w = true ->
  checkUntilAwait w =
  Return None (if canCollapse w then w else exec destroyCollapsibleHeader w).
Proof.
  intros Hinit. unfold checkUntilAwait, bind, gets, ret. rewrite Hinit.
  destruct (canCollapse w); cbn [negb andb]; [reflexivity|].
  now rewrite destroy_returns.
Qed.

Lemma frozen_same w w' : SameController w w' -> Frozen w w'.
Proof. unfold SameController, Frozen. intuition congruence. Qed.

Lemma settled_act a c :
  Settled c -> Settled (act a c) /\ Frozen (world c) (world (act a c)).
Proof.
  destruct c as [w ks]. unfold Settled. cbn [world suspended].
  intros (Hinit & -> & Hr & Hw).
  assert (Hrefl : (collapsibleHeaderInitialized w = true /\ @nil Suspended = [] /\
                   domReads w = [] /\ domWrites w = []) /\ Frozen w w).
  { split; [now repeat split|]. apply frozen_same, SameController_refl. }
  assert (Hdestroy : (collapsibleHeaderInitialized (exec destroyCollapsibleHeader w) = true /\
            @nil Suspended = [] /\ domReads (exec destroyCollapsibleHeader w) = [] /\
            domWrites (exec destroyCollapsibleHeader w) = []) /\
            Frozen w (exec destroyCollapsibleHeader w)).
  { destruct (destroy_other w) as (Hi & Hs & Hn & Hdr & Hdw & Hc & _ & _ & _ & Hcb & Ho).
    unfold Frozen. repeat split; congruence || assumption. }
  assert (Hsame : forall w', SameController w w' ->
            (collapsibleHeaderInitialized w' = true /\ @nil Suspended = [] /\
             domReads w' = [] /\ domWrites w' = []) /\ Frozen w w').
  { intros w' Hs. split; [|now apply frozen_same].
    unfold SameController in Hs. repeat split; intuition congruence. }
  destruct a as [|i| | |doc' m'|target top|o entry]; cbn [act world suspended].
  - rewrite (hook_of_initialized w Hinit). cbn [world suspended option_list option_rect app].
    destruct (canCollapse w); [exact Hrefl|exact Hdestroy].
  - rewrite lookup_nil. cbn [world suspended]. exact Hrefl.
  - exact Hdestroy.
  - unfold exec. rewrite (frame_idle w Hr Hw). cbn [finalWorld]. exact Hrefl.
  - apply Hsame. now apply event_same.
  - apply Hsame. now apply event_same.
  - apply Hsame. now apply event_same.
Qed.

Lemma settled_acts l : forall c,
  Settled c -> Settled (acts l c) /\ Frozen (world c) (world (acts l c)).
Proof.
  induction l as [|a l IH]; intros c Hc.
  - split; [exact Hc|]. apply frozen_same, SameController_refl.
  - change (acts (a :: l) c) with (acts l (act a c)).
    destruct (settled_act a c Hc) as [Hc1 Hf1]. destruct (IH _ Hc1) as [Hc2 Hf2].
    split; [exact Hc2|]. unfold Frozen in *.
    destruct Hf1 as (? & ? & ? & Hcb1 & ?), Hf2 as (? & ? & ? & Hcb2 & ?).
    repeat split; try congruence.
    destruct Hcb2 as [Hcb2|Hcb2]; [now left|]. destruct Hcb1 as [Hcb1|Hcb1]; [left|right]; congruence.
Qed.

Lemma elem_of_liveObservers w o ob :
  (o, ob) ∈ liveObservers w <-> observers w !! o = Some ob /\ live ob = true.
Proof.
  unfold liveObservers. rewrite list_elem_of_In, filter_In, <- list_elem_of_In.
  now rewrite elem_of_map_to_list.
Qed.

Lemma liveObservers_nil w :
  liveObservers w = [] <->
  forall o ob, observers w !! o = Some ob -> live ob = false.
Proof.
  split.
  - intros Hnil o ob Hob. destruct (live ob) eqn:Hl; [|reflexivity].
    assert (Hin : (o, ob) ∈ liveObservers w) by now apply elem_of_liveObservers.
    rewrite Hnil in Hin. inversion Hin.
  - intros Hdead. destruct (liveObservers w) as [|[o ob] l] eqn:Hl; [reflexivity|].
    assert (Hin : (o, ob) ∈ liveObservers w) by (rewrite Hl; left).
    apply elem_of_liveObservers in Hin as [Hob Hlive].
    rewrite (Hdead o ob Hob) in Hlive. discriminate.
Qed.

Lemma destroy_follows w :
  Follows w ->
  Follows (exec destroyCollapsibleHeader w) /\ Released (exec destroyCollapsibleHeader w) /\
  (scrollEl w = None \/ contentScrollCallback (exec destroyCollapsibleHeader w) = None).
Proof.
  destruct w as [doc m st at_ init s cb o n ls obs cons rs ws inact border scale clones].
  unfold Follows, Released. cbn [scrollListeners scrollEl contentScrollCallback intersectionObserver].
  intros [Hls Hobs].
  assert (Hdead : forall w0 w1, observers w0 = obs ->
            observers w1 = match o with Some o => alter clearTargets o obs | None => obs end ->
            map fst (liveObservers w0) = match o with Some o => [o] | None => [] end ->
            liveObservers w1 = []).
  { intros w0 w1 Hw0 Hw1 Hl. apply liveObservers_nil. intros o' ob'. rewrite Hw1.
    destruct o as [o|].
    - rewrite lookup_alter. case_decide as Ho.
      + subst o'. destruct (obs !! o); [|discriminate]. now intros [= <-].
      + intros Hob'. destruct (live ob') eqn:Hlive; [|reflexivity]. exfalso. apply Ho.
        assert (Hin : (o', ob') ∈ liveObservers w0)
          by (apply elem_of_liveObservers; now rewrite Hw0).
        apply list_elem_of_In, (in_map fst) in Hin. rewrite Hl in Hin.
        destruct Hin as [Hin|[]]. now symmetry.
    - intros Hob'. destruct (live ob') eqn:Hlive; [|reflexivity]. exfalso.
      assert (Hin : (o', ob') ∈ liveObservers w0)
        by (apply elem_of_liveObservers; now rewrite Hw0).
      apply list_elem_of_In, (in_map fst) in Hin. rewrite Hl in Hin. destruct Hin. }
  set (w := Build_World doc m st at_ init s cb o n ls obs cons rs ws inact border scale clones)
    in *.
  assert (Ho' : intersectionObserver (exec destroyCollapsibleHeader w) = None)
    by (subst w; destruct o, s, cb; reflexivity).
  assert (Hs' : scrollEl (exec destroyCollapsibleHeader w) = s)
    by (subst w; destruct o, s, cb; reflexivity).
  assert (Hobs' : observers (exec destroyCollapsibleHeader w) =
                  match o with Some o => alter clearTargets o obs | None => obs end)
    by (subst w; destruct o, s, cb; reflexivity).
  assert (Hls' : scrollListeners (exec destroyCollapsibleHeader w) = []).
  { subst w. destruct o, s as [s|], cb as [cb|]; subst ls; js; try reflexivity;
      unfold sameListener; cbn [fst snd];
      rewrite bool_decide_true by reflexivity; rewrite Nat.eqb_refl; reflexivity. }
  assert (Hcb' : s = None \/ contentScrollCallback (exec destroyCollapsibleHeader w) = None)
    by (subst w; destruct o, s, cb; auto).
  rewrite Ho', Hs', Hls', (Hdead w _ eq_refl Hobs' Hobs).
  repeat split; auto. destruct s; [|reflexivity].
  destruct Hcb' as [Hx|Hx]; [discriminate|now rewrite Hx].
Qed.

Lemma Follows_same w w' : SameController w w' -> Follows w -> Follows w'.
Proof.
  unfold SameController, Follows, liveObservers.
  intros (_ & _ & -> & -> & -> & _ & -> & -> & _). auto.
Qed.

Lemma follows_act a c : Settled c -> Follows (world c) -> Follows (world (act a c)).
Proof.
  destruct c as [w ks]. unfold Settled. cbn [world suspended].
  intros (Hinit & -> & Hr & Hw) Hf.
  destruct a as [|i| | |doc' m'|target top|o entry]; cbn [act world suspended].
  - rewrite (hook_of_initialized w Hinit). cbn [world].
    destruct (canCollapse w); [exact Hf|now apply destroy_follows].
  - rewrite lookup_nil. exact Hf.
  - now apply destroy_follows.
  - unfold exec. now rewrite (frame_idle w Hr Hw).
  - apply (Follows_same w); [now apply event_same|exact Hf].
  - apply (Follows_same w); [now apply event_same|exact Hf].
  - apply (Follows_same w); [now apply event_same|exact Hf].
Qed.

Lemma destroy_released w :
  Released w ->
  Released (exec destroyCollapsibleHeader w) /\
  inactiveHeaders (exec destroyCollapsibleHeader w) = inactiveHeaders w /\
  borderVisible (exec destroyCollapsibleHeader w) = borderVisible w /\
  titleScale (exec destroyCollapsibleHeader w) = titleScale w.
Proof.
  destruct w as [doc m st at_ init s cb o n ls obs cons rs ws inact border scale clones].
  unfold Released, liveObservers. cbn [intersectionObserver scrollListeners observers].
  intros (-> & -> & Hl).
  set (w := Build_World doc m st at_ init s cb None n [] obs cons rs ws inact border scale clones).
  assert (Ho' : intersectionObserver (exec destroyCollapsibleHeader w) = None)
    by (subst w; destruct s, cb; reflexivity).
  assert (Hls' : scrollListeners (exec destroyCollapsibleHeader w) = [])
    by (subst w; destruct s, cb; reflexivity).
  assert (Hobs' : observers (exec destroyCollapsibleHeader w) = obs)
    by (subst w; destruct s, cb; reflexivity).
  rewrite Ho', Hls', Hobs'. subst w. destruct s, cb; repeat split; assumption.
Qed.

Lemma released_act a c :
  Settled c -> Released (world c) ->
  let w' := world (act a c) in
  Released w' /\ inactiveHeaders w' = inactiveHeaders (world c) /\
  borderVisible w' = borderVisible (world c) /\ titleScale w' = titleScale (world c).
Proof.
  destruct c as [w ks]. unfold Settled. cbn [world suspended].
  intros (Hinit & -> & Hr & Hw) Hq. cbv zeta.
  assert (Hdestroy : Released (exec destroyCollapsibleHeader w) /\
            inactiveHeaders (exec destroyCollapsibleHeader w) = inactiveHeaders w /\
            borderVisible (exec destroyCollapsibleHeader w) = borderVisible w /\
            titleScale (exec destroyCollapsibleHeader w) = titleScale w).
  { now apply destroy_released. }
  assert (Hrefl : Released w /\ inactiveHeaders w = inactiveHeaders w /\
                  borderVisible w = borderVisible w /\ titleScale w = titleScale w)
    by (split; [exact Hq|repeat split]).
  destruct a as [|i| | |doc' m'|target top|o entry]; cbn [act world suspended].
  - rewrite (hook_of_initialized w Hinit). cbn [world].
    destruct (canCollapse w); [exact Hrefl|exact Hdestroy].
  - rewrite lookup_nil. exact Hrefl.
  - exact Hdestroy.
  - unfold exec. rewrite (frame_idle w Hr Hw). exact Hrefl.
  - destruct w. exact Hrefl.
  - destruct w as [doc m st at_ init s cb o n ls obs cons rs ws inact border scale clones].
    destruct Hq as (Ho & Hl & Hlive). cbn [scrollListeners] in Hl. subst ls.
    js. repeat split; assumption.
  - destruct Hq as (Ho & Hl & Hlive). unfold exec, step, bind, gets.
    destruct (observers w !! o) as [ob|] eqn:Hob; [|exact Hrefl].
    rewrite (proj1 (liveObservers_nil w) Hlive o ob Hob). exact Hrefl.
Qed.

Lemma released_acts l : forall c,
  Settled c -> Released (world c) ->
  let w' := world (acts l c) in
  Released w' /\ inactiveHeaders w' = inactiveHeaders (world c) /\
  borderVisible w' = borderVisible (world c) /\ titleScale w' = titleScale (world c).
Proof.
  induction l as [|a l IH]; intros c Hc Hq; cbv zeta; [split; [exact Hq|repeat split]|].
  change (acts (a :: l) c) with (acts l (act a c)).
  destruct (settled_act a c Hc) as [Hc1 _].
  destruct (released_act a c Hc Hq) as (Hq1 & Hi1 & Hb1 & Ht1).
  destruct (IH _ Hc1 Hq1) as (Hq2 & Hi2 & Hb2 & Ht2).
  repeat split; try apply Hq2; congruence.
Qed.

Lemma follows_acts l : forall c,
  Settled c -> Follows (world c) -> Follows (world (acts l c)).
Proof.
  induction l as [|a l IH]; intros c Hc Hf; [exact Hf|].
  change (acts (a :: l) c) with (acts l (act a c)).
  apply IH; [now apply settled_act|now apply follows_act].
Qed.

Lemma checkUntilAwait_returns w :
  exists k, checkUntilAwait w = Return k (exec checkUntilAwait w).
Proof.
  unfold exec, checkUntilAwait, setupUntilAwait, getScrollElement, consoleError, bind, gets,
    modify, ret.
  destruct (canCollapse w), (collapsibleHeaderInitialized w); cbn [negb andb];
    try (eexists; reflexivity).
  - destruct (contentElOf w (pageElOf w)), (pageElOf w); eexists; reflexivity.
  - rewrite destroy_returns. eexists; reflexivity.
Qed.

(** The run of events whose hooks do not overlap is the run of their
    actions. *)
Lemma serial_step e w :
  acts (serial e) {| world := w; suspended := [] |} =
  {| world := exec (step e) w; suspended := [] |}.
Proof.
  assert (Hhook : acts [HookCalled; HookResumed 0; FrameRun] {| world := w; suspended := [] |} =
                  {| world := exec (checkCollapsibleHeader ;; frame)%js w; suspended := [] |}).
  { destruct (checkUntilAwait_returns w) as [k Hk].
    set (w1 := exec checkUntilAwait w) in *. clearbody w1.
    unfold acts, fold_left, act, exec, checkCollapsibleHeader, bind. cbn [world suspended].
    rewrite Hk. destruct k as [k|]; reflexivity. }
  destruct e as [| | |doc' m'|target top|o entry]; try reflexivity; try exact Hhook.
  unfold acts, serial, fold_left, act, exec, step, componentDidUnload, bind.
  cbn [world suspended]. rewrite destroy_returns. reflexivity.
Qed.

Lemma serial_run es : forall w,
  acts (flat_map serial es) {| world := w; suspended := [] |} =
  {| world := run es w; suspended := [] |}.
Proof.
  induction es as [|e es IH]; intros w; [reflexivity|].
  cbn [flat_map]. unfold acts in *. rewrite fold_left_app.
  fold (acts (serial e) {| world := w; suspended := [] |}). rewrite serial_step. apply IH.
Qed.

(** The unload that comes between a hook and its frame is one of the
    interleavings. *)
Lemma early_unload_schedule w :
  world (acts [HookCalled; HookResumed 0; Unloaded; FrameRun]
           {| world := w; suspended := [] |}) =
  exec loadThenUnloadBeforeFrame w.
Proof.
  assert (Hresume : forall k w0, resume k w0 = Return tt (exec (resume k) w0))
    by (intros [k|] w0; reflexivity).
  destruct (checkUntilAwait_returns w) as [k Hk].
  set (w1 := exec checkUntilAwait w) in *. clearbody w1.
  assert (Hload : componentDidLoad w = Return tt (exec (resume k) w1)).
  { unfold componentDidLoad, checkCollapsibleHeader, bind. now rewrite Hk, Hresume. }
  unfold exec at 1. unfold loadThenUnloadBeforeFrame, componentDidUnload, bind.
  rewrite Hload, destroy_returns. unfold acts, fold_left, act. cbn [world suspended].
  rewrite Hk. destruct k as [k|]; reflexivity.
Qed.

End Overlap.

(** * Once the setup is over *)

Section Settling.
Context `{Constants}.

(** A history without overlapping hooks that has initialized the
    controller has settled it, with its registrations following its
    fields. *)
Lemma serial_history_settles doc m at_ es :
  let c := acts (flat_map serial es) (start doc m at_) in
  world c = run es (fresh doc m at_) /\
  (collapsibleHeaderInitialized (world c) = true -> Settled c /\ Follows (world c)).
Proof.
  cbv zeta. unfold start. rewrite serial_run. cbn [world suspended]. split; [reflexivity|].
  pose proof (reachable_Shape doc m at_ es) as Hw.
  generalize dependent (run es (fresh doc m at_)). clear doc m at_ es. intros w Hw Hinit.
  unfold Settled, Follows. cbn [world suspended].
  shapes Hw; try discriminate;
    cbn [scrollListeners scrollEl contentScrollCallback intersectionObserver domReads domWrites].
  - rewrite liveObservers_empty by reflexivity. destruct s; repeat split.
  - erewrite liveObservers_singleton by reflexivity. repeat split.
  - erewrite liveObservers_singleton by reflexivity. repeat split.
Qed.

(** Once the setup is over (the controller is initialized, no hook is
    suspended at its [await], no task is queued) and what is registered
    with the browser is what the fields hold, this stays so whatever
    happens next, hooks that overlap included: the scroll listeners are
    exactly the registration of the held scroll callback on the held
    scroll element, and the live observers are exactly the held
    observer. *)
Theorem registrations_follow_the_fields (c : Async) (l : list Action) :
  Settled c -> Follows (world c) ->
  Settled (acts l c) /\ Follows (world (acts l c)).
Proof.
  intros Hc Hf. split; [now apply settled_acts|now apply follows_acts].
Qed.

(** Once the setup is over, an unload releases everything for good:
    whatever happens afterwards, hooks that overlap included, the
    controller stays initialized, holds no observer, has no scroll
    listener and no live observer, forgets its scroll callback (unless it
    had no scroll element), and the flags of the headers, the border and
    the scale of the title stay what they were at the unload. *)
Theorem unloaded_header_never_collapses_again (c : Async) (l : list Action) :
  Settled c -> Follows (world c) ->
  let w := world c in
  let w' := world (acts (Unloaded :: l) c) in
  collapsibleHeaderInitialized w' = true /\
  intersectionObserver w' = None /\ scrollListeners w' = [] /\ liveObservers w' = [] /\
  (scrollEl w = None \/ contentScrollCallback w' = None) /\
  inactiveHeaders w' = inactiveHeaders w /\ borderVisible w' = borderVisible w /\
  titleScale w' = titleScale w.
Proof.
  intros Hc Hf. cbv zeta.
  change (acts (Unloaded :: l) c) with (acts l (act Unloaded c)).
  destruct (settled_act Unloaded c Hc) as [Hc1 _].
  destruct (destroy_follows (world c) Hf) as (_ & Hq1 & Hcb1).
  destruct (destroy_other (world c)) as (_ & _ & _ & _ & _ & _ & Hi1 & Hb1 & Ht1 & _).
  change (exec destroyCollapsibleHeader (world c)) with (world (act Unloaded c)) in *.
  destruct (settled_acts l _ Hc1) as [(Hinit2 & _) (_ & _ & _ & Hcb2 & _)].
  destruct (released_acts l _ Hc1 Hq1) as ((Ho2 & Hl2 & Hlive2) & Hi2 & Hb2 & Ht2).
  repeat split; try assumption; try congruence.
  destruct Hcb1 as [Hcb1|Hcb1]; [now left|right].
  destruct Hcb2 as [Hcb2|Hcb2]; congruence.
Qed.

(** Once the setup is over, it is not done again: whatever happens
    next, hooks that overlap and new renderings of the page included, no
    hook is suspended, the controller stays initialized and keeps the
    scroll element it found, and no further callback, observer or mirror
    is created. *)
Theorem setup_happens_at_most_once (c : Async) (l : list Action) :
  Settled c ->
  let w := world c in
  let w' := world (acts l c) in
  collapsibleHeaderInitialized w' = true /\ suspended (acts l c) = [] /\
  scrollEl w' = scrollEl w /\ nextRef w' = nextRef w /\
  clonedElements w' = clonedElements w /\
  (contentScrollCallback w' = None \/ contentScrollCallback w' = contentScrollCallback w) /\
  dom (observers w') = dom (observers w).
Proof.
  intros Hc. cbv zeta. destruct (settled_acts l c Hc) as [(Hinit & Hks & _) Hf].
  split; [exact Hinit|]. split; [exact Hks|]. exact Hf.
Qed.

End Settling.

(** The page of the documentation, loaded with nothing overlapping, and
    then a history in which two hooks overlap, the page is rendered
    without its content and the header is unloaded and loaded again. *)
Lemma registrations_follow_witness :
  let c := @acts sampleConstants (serial DidLoad) (start settingsPage ios settingsHeader) in
  let l := [HookCalled; HookCalled; HookResumed 0; Rendered noContentPage ios; HookCalled;
            FrameRun; Scrolled [1%nat] 10%Q; Unloaded; HookCalled; HookResumed 0; FrameRun] in
  Settled c /\ Follows (world c) /\ scrollListeners (world c) <> [] /\
  Settled (@acts sampleConstants l c) /\ Follows (world (@acts sampleConstants l c)).
Proof.
  intros c l.
  assert (Hs : Settled c) by (vm_compute; repeat split).
  assert (Hf : Follows (world c)) by (vm_compute; repeat split).
  split; [exact Hs|]. split; [exact Hf|]. split; [vm_compute; discriminate|].
  exact (@registrations_follow_the_fields sampleConstants c l Hs Hf).
Defined.

(** The same page: after the load two hooks overlap, the header is
    unloaded, and a scroll and a report of the old observer follow. *)
Lemma unloaded_header_witness :
  let c := @acts sampleConstants (serial DidLoad) (start settingsPage ios settingsHeader) in
  let l := [HookCalled; HookCalled; HookResumed 0; FrameRun; Scrolled [1%nat] 10%Q;
            Reported 2 {| intersectionRatio := 0%Q |}] in
  let w := world c in
  let w' := world (@acts sampleConstants (Unloaded :: l) c) in
  Settled c /\ Follows w /\ scrollListeners w <> [] /\ canCollapse w' = true /\
  collapsibleHeaderInitialized w' = true /\
  intersectionObserver w' = None /\ scrollListeners w' = [] /\ liveObservers w' = [] /\
  (scrollEl w = None \/ contentScrollCallback w' = None) /\
  inactiveHeaders w' = inactiveHeaders w /\ borderVisible w' = borderVisible w /\
  titleScale w' = titleScale w.
Proof.
  intros c l w w'.
  assert (Hs : Settled c) by (vm_compute; repeat split).
  assert (Hf : Follows w) by (vm_compute; repeat split).
  split; [exact Hs|]. split; [exact Hf|]. split; [vm_compute; discriminate|].
  split; [vm_compute; reflexivity|].
  exact (@unloaded_header_never_collapses_again sampleConstants c l Hs Hf).
Defined.

(** The same page: after the load hooks overlap while the page is
    rendered without its content. *)
Lemma setup_happens_at_most_once_witness :
  let c := @acts sampleConstants (serial DidLoad) (start settingsPage ios settingsHeader) in
  let l := [HookCalled; HookCalled; Rendered noContentPage ios; HookCalled; HookResumed 0;
            FrameRun] in
  let w := world c in
  let w' := world (@acts sampleConstants l c) in
  Settled c /\ scrollEl w = Some [1%nat] /\ contentElOf w' (pageElOf w') = None /\
  collapsibleHeaderInitialized w' = true /\ suspended (@acts sampleConstants l c) = [] /\
  scrollEl w' = scrollEl w /\ nextRef w' = nextRef w /\
  clonedElements w' = clonedElements w /\
  (contentScrollCallback w' = None \/ contentScrollCallback w' = contentScrollCallback w) /\
  dom (observers w') = dom (observers w).
Proof.
  intros c l w w'.
  assert (Hs : Settled c) by (vm_compute; repeat split).
  split; [exact Hs|]. split; [vm_compute; reflexivity|]. split; [vm_compute; reflexivity|].
  exact (@setup_happens_at_most_once sampleConstants c l Hs).
Defined.


(** * The observer of a setup *)

Section Observer.
Context `{Constants}.

(** The inner read task of the setup, in whatever state it runs: it
    creates one new observer, with the callback it is given, a threshold
    of 0.25 and a root margin whose top offset is the negative of the
    rendered height of the primary header; the controller holds it; it
    observes the first toolbar of the index of the condensing header and
    nothing else; and every other observer is left as it is. *)
Theorem observe_read_creates_the_observer (w : World) (main scroll : HeaderIndex)
    (cb : Callback) (first : ToolbarIndex) (rest : list ToolbarIndex) :
  toolbars scroll = first :: rest ->
  let o := nextRef w in
  let w' := exec (observeRead main scroll cb) w in
  returns (observeRead main scroll cb w) = true /\
  intersectionObserver w' = Some o /\ nextRef w' = S o /\
  (exists ob,
     observers w' !! o = Some ob /\ callback ob = cb /\ threshold ob = 0.25%Q /\
     rootMarginTop (rootMargin ob) = Some (- clientHeightAt (document w) (headerEl main)) /\
     targets ob = [toolbarEl first] /\ live ob = true) /\
  forall o', o' <> o -> observers w' !! o' = observers w !! o'.
Proof.
  intros Htb. cbv zeta.
  assert (Hlk : toolbars scroll !! 0%nat = Some first) by now rewrite Htb.
  destruct w as [doc m st at_ init s cb0 o n ls obs cons rs ws inact border scale clones].
  js. rewrite Hlk. js. split; [reflexivity|]. split; [reflexivity|]. split; [reflexivity|].
  split.
  - eexists. rewrite lookup_alter, decide_True by reflexivity.
    rewrite lookup_insert, decide_True by reflexivity. cbn [fmap option_fmap option_map].
    split; [reflexivity|]. unfold addTarget. cbn [callback threshold rootMargin targets].
    split; [reflexivity|]. split; [reflexivity|]. split; [|split; reflexivity].
    destruct (clientHeightAt_N doc (headerEl main)) as [h ->]. apply rootMarginTop_template.
  - intros o' Ho'. rewrite lookup_alter, decide_False by congruence.
    rewrite lookup_insert, decide_False by congruence. reflexivity.
Qed.


End Observer.

(** * Two setups *)

Section Twice.
Context `{Constants}.

(** A hook that finds the controller not initialized and the content in
    place is suspended, and changes nothing yet. *)
Lemma hook_suspends c p ct :
  collapsibleHeaderInitialized (world c) = false ->
  canCollapse (world c) = true ->
  pageElOf (world c) = Some p -> contentElOf (world c) (Some p) = Some ct ->
  act HookCalled c =
  {| world := world c;
     suspended := suspended c ++
       [{| suspendedPageEl := p;
           resolvedScrollEl := scrollElementOf (document (world c)) ct |}] |}.
Proof.
  intros Hinit Hcan Hp Hc. unfold act, checkUntilAwait, bind, gets.
  rewrite Hcan, Hinit. cbn [negb andb]. rewrite Hp, Hc. reflexivity.
Qed.

Lemma cloneWrite_again w :
  clonedElements w = ["ion-title"; "ion-back-button"] -> cloneWrite w = Return tt w.
Proof.
  intros Hc. unfold cloneWrite, bind.
  rewrite cloneElement_present by (rewrite Hc; left).
  apply cloneElement_present. rewrite Hc. right. left.
Qed.

Lemma overlap_frame doc m st at_ cons p s mh main scroll first rest :
  mainHeaderOf doc p = Some mh ->
  createHeaderIndex doc mh = Some main ->
  createHeaderIndex doc at_ = Some scroll ->
  toolbars scroll = first :: rest ->
  exec frame
    (Build_World doc m st at_ true (Some s) None None 0 [] ∅ cons
       [SetupRead p; SetupRead p] [CloneWrite; CloneWrite] ∅ ∅ None []) =
  wiredTwice (Build_World doc m st at_ false None None None 0 [] ∅ cons [] [] ∅ ∅ None [])
    s main scroll first.
Proof.
  intros Hmh Hmain Hscroll Htb.
  assert (Hlk : toolbars scroll !! 0%nat = Some first) by now rewrite Htb.
  js. rewrite Hmh. js. rewrite Hmain, Hscroll. js. rewrite remainingHeightOf_sum. js.
  rewrite Hmh. js. rewrite Hmain, Hscroll. js. rewrite remainingHeightOf_sum. js.
  unfold sameListener. cbn [fst snd ref Nat.eqb]. rewrite bool_decide_true by reflexivity. js.
  rewrite Hlk. js. rewrite Hlk. js.
  rewrite cloneWrite_first by reflexivity. js.
  rewrite cloneWrite_again by reflexivity. js.
  rewrite insert_empty, alter_singleton_eq, alter_insert_eq.
  rewrite (left_id_L ∅ (∪)), (idemp_L (∪)).
  unfold addTarget. cbn [targets callback threshold rootMargin].
  rewrite bool_decide_false by (intros Hin; inversion Hin). cbn [app].
  reflexivity.
Qed.

Lemma overlap_unload doc m st at_ cons s main scroll first :
  exec destroyCollapsibleHeader
    (wiredTwice (Build_World doc m st at_ false None None None 0 [] ∅ cons [] [] ∅ ∅ None [])
       s main scroll first) =
  wiredTwiceUnloaded
    (Build_World doc m st at_ false None None None 0 [] ∅ cons [] [] ∅ ∅ None [])
    s main scroll first.
Proof.
  unfold wiredTwice, wiredTwiceUnloaded, scrollCallbackWith. js.
  unfold sameListener. cbn [fst snd ref Nat.eqb]. rewrite !bool_decide_true by reflexivity. js.
  rewrite alter_insert_eq. reflexivity.
Qed.

(** When two hooks overlap on a page where the setup succeeds (the page
    container, the content, its scroll element, the primary header and
    the two indexes are found), both pass the guard and both set up: two
    scroll listeners are registered and two observers are live, of which
    the controller holds the later ones.  The unload then releases what
    the controller holds, and the earlier listener and the earlier
    observer stay registered. *)
Theorem overlapping_hooks_set_up_twice doc m at_ es :
  let w := run es (fresh doc m at_) in
  canCollapse w = true ->
  collapsibleHeaderInitialized w = false ->
  forall p c s mh main scroll,
    pageElOf w = Some p -> contentElOf w (Some p) = Some c ->
    scrollElementOf (document w) c = Some s ->
    mainHeaderOf (document w) p = Some mh ->
    createHeaderIndex (document w) mh = Some main ->
    createHeaderIndex (document w) (el w) = Some scroll ->
    exists first rest,
      let twice := wiredTwice w s main scroll first in
      let after := wiredTwiceUnloaded w s main scroll first in
      toolbars scroll = first :: rest /\
      acts overlappingHooks {| world := w; suspended := [] |} =
        {| world := twice; suspended := [] |} /\
      act Unloaded {| world := twice; suspended := [] |} =
        {| world := after; suspended := [] |} /\
      length (scrollListeners twice) = 2%nat /\
      live <$> observers twice !! 4%nat = Some true /\
      live <$> observers twice !! 5%nat = Some true /\
      intersectionObserver twice = Some 5%nat /\
      length (scrollListeners after) = 1%nat /\
      live <$> observers after !! 4%nat = Some true /\
      intersectionObserver after = None /\ contentScrollCallback after = None.
Proof.
  cbv zeta. intros Hcan Hinit p c s mh main scroll Hp Hc Hs Hmh Hmain Hscroll.
  pose proof (reachable_Shape doc m at_ es) as Hw.
  generalize dependent (run es (fresh doc m at_)). clear doc m at_ es.
  intros w Hcan Hinit Hp Hc Hs Hmh Hmain Hscroll Hw.
  destruct Hw; try discriminate. cbn [document el] in *.
  destruct (createHeaderIndex_Some _ _ _ Hscroll) as [_ (first & rest & Htb)].
  exists first, rest. split; [exact Htb|]. split; [|split].
  - unfold overlappingHooks, acts, fold_left.
    match goal with
    | |- context [act HookCalled (act HookCalled ?c0)] =>
        rewrite (hook_suspends c0 p c Hinit Hcan Hp Hc)
    end.
    cbn [world suspended app document].
    match goal with
    | |- context [act HookCalled ?c0] => rewrite (hook_suspends c0 p c Hinit Hcan Hp Hc)
    end.
    cbn [world suspended app document].
    rewrite Hs. unfold act at 2. cbn [suspended world lookup list_lookup].
    unfold act at 2. cbn [suspended world lookup list_lookup delete list_delete].
    unfold act. cbn [world suspended]. f_equal.
    rewrite <- (overlap_frame _ _ _ _ _ p s mh main scroll first rest Hmh Hmain Hscroll Htb).
    reflexivity.
  - unfold act, componentDidUnload. cbn [world suspended]. now rewrite overlap_unload.
  - unfold wiredTwice, wiredTwiceUnloaded. cbn [scrollListeners observers intersectionObserver
      contentScrollCallback length].
    rewrite !lookup_insert_eq, !lookup_insert_ne, !lookup_singleton_eq by discriminate.
    repeat split.
Qed.

End Twice.

(** * The pages of the documentation, with hooks that overlap *)

(** C4.  On the page of the documentation, [componentDidLoad] and
    [componentDidUpdate] called back to back both pass the guard, since
    the initialized flag is only set after the [await]: two observers are
    created and both are live, each with threshold 0.25, a root margin
    whose top offset is the negative of the 44 pixels of the primary
    header, and the first toolbar of the condensing header as its only
    target.  The controller holds the later one only, so the unload
    leaves the earlier one live. *)
Theorem overlapping_hooks_leave_two_live_observers :
  let c := @acts sampleConstants overlappingHooks (start settingsPage ios settingsHeader) in
  let w := world c in
  let after := world (@act sampleConstants Unloaded c) in
  clientHeightAt settingsPage [0%nat] = 44 /\
  map (fun io => (fst io, threshold (snd io), rootMarginTop (rootMargin (snd io)),
                  targets (snd io)))
      (liveObservers w) =
    [(4%nat, 0.25%Q, Some (-44), [[1; 0; 0]%nat]);
     (5%nat, 0.25%Q, Some (-44), [[1; 0; 0]%nat])] /\
  intersectionObserver w = Some 5%nat /\
  map fst (liveObservers after) = [4%nat] /\
  intersectionObserver after = None.
Proof. vm_compute. repeat split. Qed.

Lemma observe_read_witness :
  let w := fresh settingsPage ios settingsHeader in
  let cb := {| ref := 7; code := ToolbarIntersection settingsMain settingsScroll |} in
  let w' := exec (observeRead settingsMain settingsScroll cb) w in
  returns (observeRead settingsMain settingsScroll cb w) = true /\
  intersectionObserver w' = Some 0%nat /\ nextRef w' = 1%nat /\
  (exists ob,
     observers w' !! 0%nat = Some ob /\ callback ob = cb /\ threshold ob = 0.25%Q /\
     rootMarginTop (rootMargin ob) = Some (- clientHeightAt settingsPage [0%nat]) /\
     targets ob = [[1; 0; 0]%nat] /\ live ob = true) /\
  forall o', o' <> 0%nat -> observers w' !! o' = observers w !! o'.
Proof.
  intros w cb w'.
  exact (observe_read_creates_the_observer w settingsMain settingsScroll cb _ _ eq_refl).
Defined.


Lemma successful_setup_witness :
  let w := fresh settingsPage ios settingsHeader in
  let w' := exec (@step sampleConstants DidLoad) w in
  isActive w' [0%nat] = false /\ isActive w' settingsHeader = true /\
  borderVisible w' = ∅ /\ titleScale w' = None.
Proof.
  exact (proj1 (proj2 (@successful_setup_deactivates_primary sampleConstants settingsPage
           ios settingsHeader [] DidLoad))
           eq_refl eq_refl eq_refl [] [1%nat] [1%nat] [0%nat] settingsMain settingsScroll
           eq_refl eq_refl eq_refl eq_refl eq_refl eq_refl).
Defined.

Lemma overlapping_hooks_witness :
  let w := fresh settingsPage ios settingsHeader in
  exists first rest,
    let twice := wiredTwice w [1%nat] settingsMain settingsScroll first in
    let after := wiredTwiceUnloaded w [1%nat] settingsMain settingsScroll first in
    toolbars settingsScroll = first :: rest /\
    @acts sampleConstants overlappingHooks {| world := w; suspended := [] |} =
      {| world := twice; suspended := [] |} /\
    @act sampleConstants Unloaded {| world := twice; suspended := [] |} =
      {| world := after; suspended := [] |} /\
    length (scrollListeners twice) = 2%nat /\
    live <$> observers twice !! 4%nat = Some true /\
    live <$> observers twice !! 5%nat = Some true /\
    intersectionObserver twice = Some 5%nat /\
    length (scrollListeners after) = 1%nat /\
    live <$> observers after !! 4%nat = Some true /\
    intersectionObserver after = None /\ contentScrollCallback after = None.
Proof.
  exact (@overlapping_hooks_set_up_twice sampleConstants settingsPage ios settingsHeader []
           eq_refl eq_refl [] [1%nat] [1%nat] [0%nat] settingsMain settingsScroll
           eq_refl eq_refl eq_refl eq_refl eq_refl eq_refl).
Defined.
